(** * NuHeat node server: poll coordinator, discovery, thermostat nodes

    A shallow embedding of [nodeserver.js], [Nodes/ControllerNode.js],
    [Nodes/ThermostatNode_F.js] and [Nodes/ThermostatNode_C.js], and the
    properties of the poll/reconcile coordinator stated over it. *)

From Stdlib Require Import ZArith Lia Floats.PrimFloat.
From Stdlib Require Uint63.
From stdpp Require Import base strings pretty gmap list fin_maps.

(** ** JavaScript objects used as string-keyed maps *)

(** The own, enumerable properties of a plain object are a [gmap]; every
    plain object also inherits the properties of [Object.prototype], which
    the [in] operator sees and [Object.keys] does not. *)
Definition Object_prototype_keys : list string :=
  [ "constructor"; "__defineGetter__"; "__defineSetter__"; "hasOwnProperty";
    "__lookupGetter__"; "__lookupSetter__"; "isPrototypeOf";
    "propertyIsEnumerable"; "toString"; "valueOf"; "__proto__";
    "toLocaleString" ].

(** [Object.keys(o)] *)
Definition Object_keys {V} (o : gmap string V) : list string :=
  (map_to_list o).*1.

(** [key in o] *)
Definition js_in {V} (key : string) (o : gmap string V) : bool :=
  bool_decide (key ∈ dom o) || bool_decide (key ∈ Object_prototype_keys).

(** Truthiness of a string value: only the empty string is falsy. *)
Definition truthy (v : string) : bool := negb (String.eqb v "").

(** ** nodeserver.js: configuration parameters *)

Definition emailParam : string := "Username".
Definition pwParam : string := "Password".
Definition tempScale : string := "Scale".

Definition defaultParams_literal : list (string * string) :=
  [ (emailParam, "john@doe.net"); (pwParam, "password");
    (tempScale, "Fahrenheit") ].

Definition defaultParams : gmap string string :=
  list_to_map defaultParams_literal.

(** [Object.keys(defaultParams)], in the literal's order. *)
Definition defaultParamKeys : list string := defaultParams_literal.*1.

(** [defaultParams[key]] for a key of the literal. *)
Definition defaultParam (key : string) : string :=
  default "" (defaultParams !! key).

(** The orphan keys computed by [initializeCustomParams]. *)
Definition differentKeys (currentParams : gmap string string) : list string :=
  filter (λ key, negb (js_in key defaultParams) || negb (js_in key currentParams) = true)
         (defaultParamKeys ++ Object_keys currentParams).

(** One iteration of [defaultParamKeys.forEach]:
    [customParams[key] = currentParams[key] ? currentParams[key] : defaultParams[key]].
    A missing key reads as [undefined], which is falsy. *)
Definition keepOrDefault (currentParams : gmap string string) (key : string) : string :=
  match currentParams !! key with
  | Some v => if truthy v then v else defaultParam key
  | None => defaultParam key
  end.

Definition customParams (currentParams : gmap string string) : gmap string string :=
  foldl (λ acc key, <[key := keepOrDefault currentParams key]> acc) ∅ defaultParamKeys.

(** [initializeCustomParams(currentParams)]: its only effect is the call
    [poly.saveCustomParams(customParams)]; the result is the argument of that
    call, or [None] when the call is not made. *)
Definition initializeCustomParams (currentParams : gmap string string)
  : option (gmap string string) :=
  if bool_decide (length (differentKeys currentParams) ≠ 0)
  then Some (customParams currentParams)
  else None.

(** The persisted parameters after the configuration handler ran on the
    persisted parameters [current]. *)
Definition reconcile (current : gmap string string) : gmap string string :=
  match initializeCustomParams current with
  | Some merged => merged
  | None => current
  end.

(** A key present in exactly one of the two mappings. *)
Definition orphan (current : gmap string string) (key : string) : Prop :=
  ((key ∈ dom current) ∧ (key ∉ dom defaultParams)) ∨
  ((key ∉ dom current) ∧ (key ∈ dom defaultParams)).

(** The rewrite branch as the specification words it: some orphan key
    forces a rewrite over the default key set that keeps every present
    current value. *)
Definition rewrite_branch_spec (current : gmap string string) : Prop :=
  (∃ key, orphan current key) →
  ∃ merged, initializeCustomParams current = Some merged ∧
            dom merged = dom defaultParams ∧
            ∀ key, key ∈ dom defaultParams →
                   merged !! key = Some (default (defaultParam key) (current !! key)).

(** ** Values, errors and vendor data *)

(** JavaScript numbers are IEEE-754 doubles. *)
Inductive jsval : Type :=
| VUndefined
| VNull
| VBool (b : bool)
| VNum (x : float)
| VStr (s : string).

(** An [Error] object, as far as the node server reads it. *)
Record error := Error { err_message : string; err_stack : string }.

(** How a call ends: it returns (a promise is fulfilled) or it throws (a
    promise is rejected). *)
Inductive outcome (A : Type) : Type :=
| Resolved (a : A)
| Rejected (e : error).
Arguments Resolved {A} a.
Arguments Rejected {A} e.

Definition is_resolved {A : Type} (r : outcome A) : bool :=
  match r with Resolved _ => true | Rejected _ => false end.

(** A serial number of the vendor's listing and its [toString()]. *)
Inductive serial : Type :=
| SerialString (s : string)
| SerialInteger (z : Z).

Definition serial_toString (s : serial) : string :=
  match s with
  | SerialString s => s
  | SerialInteger z => pretty z
  end.

(** The state of one thermostat as [nuheat.thermostat(address)] returns it. *)
Record statInfo := StatInfo {
  Temperature : jsval;
  SetPointTemp : jsval;
  OperatingMode : jsval;
  Heating : jsval
}.

(** The listing [nuheat.thermostats()] returns. *)
Record thermostat := Thermostat { Room : string; SerialNumber : serial }.
Record group := Group { groupName : string; Thermostats : list thermostat }.
(** [Groups] is [None] when the property is missing. *)
Record listing := Listing { Groups : option (list group) }.

(** ** Nodes *)

Inductive nodeDefId : Type := CONTROLLER | THERMOSTAT_F | THERMOSTAT_C.

Record driver := Driver { drv_value : jsval; drv_uom : Z }.

Record node := Node {
  node_id : nodeDefId;
  node_primary : string;
  node_address : string;
  node_name : string;
  node_drivers : gmap string driver
}.

(** [new ControllerNode(poly, primary, address, name)] *)
Definition new_ControllerNode (primary address name : string) : node :=
  Node CONTROLLER primary address name
       {[ "ST" := Driver (VStr "1") 2 ]}.

(** [new ThermostatNode_F(polyInterface, primary, address, name)] *)
Definition new_ThermostatNode_F (primary address name : string) : node :=
  Node THERMOSTAT_F primary address name
       {[ "ST" := Driver (VStr "0") 17; "CLISPH" := Driver (VStr "0") 17;
          "CLIMD" := Driver (VStr "0") 25; "CLIHCS" := Driver (VStr "0") 66 ]}.

(** [new ThermostatNode_C(polyInterface, primary, address, name)] *)
Definition new_ThermostatNode_C (primary address name : string) : node :=
  Node THERMOSTAT_C primary address name
       {[ "ST" := Driver (VStr "0") 4; "CLISPH" := Driver (VStr "0") 4;
          "CLIMD" := Driver (VStr "0") 25; "CLIHCS" := Driver (VStr "0") 66 ]}.

(** An inbound command message. *)
Record message := Message { msg_value : jsval }.

(** ** Host operations *)

(** The pieces of a log line in order: the operands of [+] and the
    arguments of the logger call. Rendering is the logger's business. *)
Inductive logpart : Type :=
| PStr (s : string)
| PVal (v : jsval)
| PJson (tstats : option listing)
| PErr (e : error).

Inductive level : Type := INFO | ERROR | ERROR_STACK.

(** Synchronous calls into the host: the logger, the Polyglot interface,
    the node base class and the vendor client's converters. *)
Inductive op : Type :=
| logger (lvl : level) (parts : list logpart)
| poly_getNodes
| poly_getCustomParam (key : string)
| Node_setDriver (address drv : string) (v : jsval)
| Node_query (address : string)
| nuheat_CtoF (v : jsval)
| nuheat_FtoJC (v : jsval).

Definition op_result (o : op) : Type :=
  match o with
  | logger _ _ => unit
  | poly_getNodes => gmap string node
  | poly_getCustomParam _ => jsval
  | Node_setDriver _ _ _ => unit
  | Node_query _ => unit
  | nuheat_CtoF _ => jsval
  | nuheat_FtoJC _ => jsval
  end.

(** Asynchronous calls into the host; each returns a promise. *)
Inductive call : Type :=
| storage_getItem (key : string)
| nuheat_authenticate
| nuheat_thermostats
| nuheat_thermostat (address : string)
| nuheat_setPointHeat (address : string) (setPoint : jsval)
| nuheat_sleep (ms : Z)
| poly_addNode (n : node).

(** [None] stands for [null] and [undefined]. *)
Definition call_result (c : call) : Type :=
  match c with
  | storage_getItem _ => jsval
  | nuheat_authenticate => unit
  | nuheat_thermostats => option listing
  | nuheat_thermostat _ => option statInfo
  | nuheat_setPointHeat _ _ => unit
  | nuheat_sleep _ => unit
  | poly_addNode _ => jsval
  end.

(** The promise of a call, named by the tick at which the call was made. *)
Record promise (c : call) := Promise { promise_id : nat }.
Arguments Promise {c} promise_id.
Arguments promise_id {c} p.

(** ** Programs *)

(** A JavaScript function body as a tree of host interactions.
    - [Do o k]: the synchronous call [o]; [k] receives its result or the
      exception it threw;
    - [Start c k]: the asynchronous call [c] is made, [k] receives the promise;
    - [Await c p k]: [await p]; the function is suspended until [p] settles;
    - [Fork body k]: an [async] function of the node server is called and its
      promise dropped;
    - [Locked key fn k]: [await lock.acquire(key, fn)] for a function [fn]
      without [done] callback: [async-lock] runs [fn] once [key] is free,
      frees [key] when [fn] has returned or thrown (when the promise [fn]
      returned has settled), and settles its own promise the same way; a
      key that stays busy beyond the timeout rejects it instead;
    - [Critical key fn k]: the rest [fn] of a function that holds [key]. *)
Inductive prog (R : Type) : Type :=
| Ret (r : R)
| Throw (e : error)
| Do (o : op) (k : outcome (op_result o) → prog R)
| Start (c : call) (k : promise c → prog R)
| Await (c : call) (p : promise c) (k : outcome (call_result c) → prog R)
| Fork (body : prog unit) (k : prog R)
| Locked (key : string) (fn : prog unit) (k : outcome unit → prog R)
| Critical (key : string) (fn : prog unit) (k : outcome unit → prog R).
Arguments Ret {R} r.
Arguments Throw {R} e.
Arguments Do {R} o k.
Arguments Start {R} c k.
Arguments Await {R} c p k.
Arguments Fork {R} body k.
Arguments Locked {R} key fn k.
Arguments Critical {R} key fn k.

(** A settled outcome turned back into control flow. *)
Definition settled {A : Type} (r : outcome A) : prog A :=
  match r with Resolved a => Ret a | Rejected e => Throw e end.

Fixpoint bind {A B : Type} (p : prog A) (f : A → prog B) : prog B :=
  match p with
  | Ret a => f a
  | Throw e => Throw e
  | Do o k => Do o (λ r, bind (k r) f)
  | Start c k => Start c (λ pr, bind (k pr) f)
  | Await c pr k => Await c pr (λ r, bind (k r) f)
  | Fork body k => Fork body (bind k f)
  | Locked key fn k => Locked key fn (λ r, bind (k r) f)
  | Critical key fn k => Critical key fn (λ r, bind (k r) f)
  end.

Declare Scope prog_scope.
Delimit Scope prog_scope with prog.
Bind Scope prog_scope with prog.
Notation "x ← p ; q" := (bind p (λ x, q))
  (at level 20, p at level 100, q at level 200, only parsing) : prog_scope.
Notation "p ;; q" := (bind p (λ _, q))
  (at level 100, q at level 200, right associativity, only parsing) : prog_scope.
Open Scope prog_scope.

(** [try { p } catch (err) { h err }] *)
Fixpoint try_catch {R : Type} (p : prog R) (h : error → prog R) : prog R :=
  match p with
  | Ret r => Ret r
  | Throw e => h e
  | Do o k => Do o (λ r, try_catch (k r) h)
  | Start c k => Start c (λ pr, try_catch (k pr) h)
  | Await c pr k => Await c pr (λ r, try_catch (k r) h)
  | Fork body k => Fork body (try_catch k h)
  | Locked key fn k => Locked key fn (λ r, try_catch (k r) h)
  | Critical key fn k => Critical key fn (λ r, try_catch (k r) h)
  end.

(** A synchronous host call that throws what the host throws. *)
Definition perform (o : op) : prog (op_result o) := Do o settled.

(** [f(...)] for an asynchronous host function: the promise. *)
Definition invoke (c : call) : prog (promise c) := Start c Ret.

(** [await p] *)
Definition await {c} (p : promise c) : prog (call_result c) := Await c p settled.

(** [for (const x of l) { body x }] and [l.forEach(body)] *)
Fixpoint for_of {A : Type} (l : list A) (body : A → prog unit) : prog unit :=
  match l with
  | [] => Ret tt
  | x :: l' => body x ;; for_of l' body
  end.

Definition logger_info (parts : list logpart) : prog unit := perform (logger INFO parts).
Definition logger_error (parts : list logpart) : prog unit := perform (logger ERROR parts).
Definition logger_errorStack (err : error) (msg : string) : prog unit :=
  perform (logger ERROR_STACK [PErr err; PStr msg]).

(** ** The host: environment and world *)

(** What an execution leaves behind, in order. *)
Inductive event : Type :=
| Called (o : op)
| Started (c : call) (t : nat)
| Awaited (c : call) (t : nat) (ok : bool)
| Unhandled (e : error)
| LockTimedOut (key : string).

(** What the node server does not decide:
    - [fault o t]: the synchronous call [o] made at tick [t] throws (the
      logger apart, see [throws]);
    - [CtoF], [FtoJC]: the vendor client's unit converters;
    - [settle c t]: how the promise of the call [c] made at tick [t] settles;
    - [reconfigure t]: the custom parameters the hub sends while a function
      is suspended at tick [t], if it sends any;
    - [granted t]: a busy lock is handed over within the timeout;
    - [lockTimeout key]: the error [async-lock] rejects with otherwise. *)
Record env := Env {
  fault : op → nat → option error;
  CtoF : jsval → jsval;
  FtoJC : jsval → jsval;
  settle : ∀ c : call, nat → outcome (call_result c);
  reconfigure : nat → option (gmap string string);
  granted : nat → bool;
  lockTimeout : string → error
}.

(** A suspended [async] function: the promise it awaits and the rest of it. *)
Record task := Task {
  task_call : call;
  task_promise : promise task_call;
  task_cont : outcome (call_result task_call) → prog unit
}.

(** The state the node server shares with the host:
    - [params]: the custom parameters of the last configuration;
    - [nodes]: the node objects of [poly.getNodes()], by address;
    - [registered]: the nodes the hub accepted from [poly.addNode];
    - [held]: the keys of [lock] that are taken;
    - [pending]: the suspended [async] functions whose promise was dropped. *)
Record world := World {
  clock : nat;
  trace : list event;
  params : gmap string string;
  nodes : gmap string node;
  registered : list node;
  held : gset string;
  pending : list task
}.

Definition tick (ev : event) (w : world) : world :=
  World (S (clock w)) (trace w ++ [ev]) (params w) (nodes w) (registered w)
        (held w) (pending w).

Definition set_nodes (ns : gmap string node) (w : world) : world :=
  World (clock w) (trace w) (params w) ns (registered w) (held w) (pending w).

Definition set_held (h : gset string) (w : world) : world :=
  World (clock w) (trace w) (params w) (nodes w) (registered w) h (pending w).

Definition set_pending (ts : list task) (w : world) : world :=
  World (clock w) (trace w) (params w) (nodes w) (registered w) (held w) ts.

(** [this.setDriver(drv, v, true)] of the node base class: the driver's
    value is replaced; a name outside the driver table changes nothing. *)
Definition setDriver (drv : string) (v : jsval) (n : node) : node :=
  Node (node_id n) (node_primary n) (node_address n) (node_name n)
       (alter (λ d, Driver v (drv_uom d)) drv (node_drivers n)).

(** [poly.getCustomParam(key)] *)
Definition getCustomParam (key : string) (w : world) : jsval :=
  match params w !! key with
  | Some s => VStr s
  | None => VUndefined
  end.

Definition op_return (E : env) (o : op) (w : world) : op_result o :=
  match o with
  | logger _ _ => tt
  | poly_getNodes => nodes w
  | poly_getCustomParam key => getCustomParam key w
  | Node_setDriver _ _ _ => tt
  | Node_query _ => tt
  | nuheat_CtoF v => CtoF E v
  | nuheat_FtoJC v => FtoJC E v
  end.

Definition op_effect (o : op) (w : world) : world :=
  match o with
  | Node_setDriver address drv v => set_nodes (alter (setDriver drv v) address (nodes w)) w
  | _ => w
  end.

(** The logger never throws; any other synchronous call throws when the
    environment says so. *)
Definition throws (E : env) (o : op) (t : nat) : option error :=
  match o with
  | logger _ _ => None
  | _ => fault E o t
  end.

(** The host's synchronous calls do not throw. *)
Definition quiet (E : env) : Prop := ∀ o t, fault E o t = None.

(** One synchronous call. *)
Definition exec_op (E : env) (o : op) (w : world) : outcome (op_result o) * world :=
  match throws E o (clock w) with
  | Some e => (Rejected e, tick (Called o) w)
  | None => (Resolved (op_return E o w), op_effect o (tick (Called o) w))
  end.

Definition started (c : call) (w : world) : world := tick (Started c (clock w)) w.

(** What the world looks like when a suspended function resumes: the hub
    may have sent a configuration, and a fulfilled [addNode] has registered
    its node. *)
Definition awaited (E : env) (c : call) (t : nat) (ok : bool) (w : world) : world :=
  World (S (clock w)) (trace w ++ [Awaited c t ok])
        (default (params w) (reconfigure E (clock w)))
        (nodes w)
        (match c with
         | poly_addNode n => if ok then registered w ++ [n] else registered w
         | _ => registered w
         end)
        (held w) (pending w).

Inductive status (R : Type) : Type :=
| Done (r : outcome R)
| Blocked (c : call) (p : promise c) (k : outcome (call_result c) → prog R).
Arguments Done {R} r.
Arguments Blocked {R} c p k.

(** A dropped promise: a suspended function joins [pending], a rejection
    goes unhandled. *)
Definition park (s : status unit) (w : world) : world :=
  match s with
  | Done (Resolved _) => w
  | Done (Rejected e) => tick (Unhandled e) w
  | Blocked c p k => set_pending (pending w ++ [Task c p k]) w
  end.

Definition lock_busy (E : env) (key : string) (w : world) : bool :=
  bool_decide (key ∈ held w) && negb (granted E (clock w)).

Definition hold (key : string) (w : world) : world := set_held ({[key]} ∪ held w) w.
Definition release (key : string) (w : world) : world := set_held (held w ∖ {[key]}) w.

(** Run a function up to its first suspension. An [async] function that is
    called runs at once, up to its own first [await]; a function passed to
    the lock runs at once when the key is free. *)
Fixpoint advance {R : Type} (E : env) (p : prog R) (w : world) : status R * world :=
  match p with
  | Ret r => (Done (Resolved r), w)
  | Throw e => (Done (Rejected e), w)
  | Do o k => let '(r, w') := exec_op E o w in advance E (k r) w'
  | Start c k => advance E (k (Promise (clock w))) (started c w)
  | Await c p k => (Blocked c p k, w)
  | Fork body k => let '(s, w') := advance E body w in advance E k (park s w')
  | Locked key fn k =>
      if lock_busy E key w
      then advance E (k (Rejected (lockTimeout E key))) (tick (LockTimedOut key) w)
      else let '(s, w') := advance E fn (hold key w) in
           match s with
           | Done r => advance E (k r) (release key w')
           | Blocked c p k' => (Blocked c p (λ r, Critical key (k' r) k), w')
           end
  | Critical key fn k =>
      let '(s, w') := advance E fn w in
      match s with
      | Done r => advance E (k r) (release key w')
      | Blocked c p k' => (Blocked c p (λ r, Critical key (k' r) k), w')
      end
  end.

(** Run a function to its end: every promise it awaits settles as the
    environment says, and what others do meanwhile shows in [awaited]. *)
Fixpoint run {R : Type} (E : env) (p : prog R) (w : world) : outcome R * world :=
  match p with
  | Ret r => (Resolved r, w)
  | Throw e => (Rejected e, w)
  | Do o k => let '(r, w') := exec_op E o w in run E (k r) w'
  | Start c k => run E (k (Promise (clock w))) (started c w)
  | Await c p k =>
      let r := settle E c (promise_id p) in
      run E (k r) (awaited E c (promise_id p) (is_resolved r) w)
  | Fork body k => let '(s, w') := advance E body w in run E k (park s w')
  | Locked key fn k =>
      if lock_busy E key w
      then run E (k (Rejected (lockTimeout E key))) (tick (LockTimedOut key) w)
      else let '(r, w') := run E fn (hold key w) in run E (k r) (release key w')
  | Critical key fn k =>
      let '(r, w') := run E fn w in run E (k r) (release key w')
  end.

(** ** Nodes/ThermostatNode_F.js and Nodes/ThermostatNode_C.js *)

(** [ThermostatNode_F.query()]; [this.setDriver] writes the node object the
    registry holds under [this.address]. *)
Definition ThermostatNode_F_query (this : node) : prog unit :=
  sessionId ← (p ← invoke (storage_getItem "sessionId"); await p);
  statInfo ← (p ← invoke (nuheat_thermostat (node_address this)); await p);
  match statInfo with
  | None =>
      logger_error [PStr "Not Authenticated... Re-Authenticating..."];;
      _ ← invoke nuheat_authenticate;
      Ret tt
  | Some statInfo =>
      logger_info [PVal (Temperature statInfo)];;
      logger_info [PVal (SetPointTemp statInfo)];;
      logger_info [PVal (OperatingMode statInfo)];;
      logger_info [PVal (Heating statInfo)];;
      temp ← perform (nuheat_CtoF (Temperature statInfo));
      setPoint ← perform (nuheat_CtoF (SetPointTemp statInfo));
      (* isHeating is computed from statInfo.Heating and never read *)
      logger_info [PStr "Temperature: "; PVal temp];;
      logger_info [PStr "SetPoint: "; PVal setPoint];;
      perform (Node_setDriver (node_address this) "ST" temp);;
      perform (Node_setDriver (node_address this) "CLISPH" setPoint);;
      perform (Node_setDriver (node_address this) "CLIMD" (OperatingMode statInfo));;
      perform (Node_setDriver (node_address this) "CLIHCS" (VNum 1))
  end.

(** [ThermostatNode_F.setPointHeat(message)] *)
Definition ThermostatNode_F_setPointHeat (this : node) (message : message) : prog unit :=
  logger_info [PStr "setPointHeat: "; PVal (msg_value message)];;
  setPoint ← perform (nuheat_FtoJC (msg_value message));
  _ ← invoke (nuheat_setPointHeat (node_address this) setPoint);
  perform (Node_setDriver (node_address this) "CLISPH" (msg_value message)).

(** [ThermostatNode_C.setPointHeat(message)] *)
Definition ThermostatNode_C_setPointHeat (this : node) (message : message) : prog unit :=
  logger_info [PStr "setPointHeat: "; PVal (msg_value message)].

(** [node.query()]: the Fahrenheit thermostat overrides it with an [async]
    method; the other classes inherit the base class's. *)
Definition query (this : node) : prog unit :=
  match node_id this with
  | THERMOSTAT_F => Fork (ThermostatNode_F_query this) (Ret tt)
  | THERMOSTAT_C | CONTROLLER => perform (Node_query (node_address this))
  end.

(** The handler the [CLISPH] entry of [this.commands] names. *)
Definition setPointHeat (this : node) (message : message) : option (prog unit) :=
  match node_id this with
  | THERMOSTAT_F => Some (ThermostatNode_F_setPointHeat this message)
  | THERMOSTAT_C => Some (ThermostatNode_C_setPointHeat this message)
  | CONTROLLER => None
  end.

(** ** Nodes/ControllerNode.js *)

(** [scale === 'Fahrenheit'] *)
Definition is_Fahrenheit (scale : jsval) : bool :=
  match scale with
  | VStr s => String.eqb s "Fahrenheit"
  | _ => false
  end.

(** The node class the inner loop of [onDiscover] instantiates for a scale. *)
Definition new_Thermostat (scale : jsval) (address name : string) : node :=
  if is_Fahrenheit scale
  then new_ThermostatNode_F address address name
  else new_ThermostatNode_C address address name.

(** The body of the inner loop of [onDiscover]. *)
Definition addThermostat (stat : thermostat) : prog unit :=
  let name := Room stat in
  let address := serial_toString (SerialNumber stat) in
  scale ← perform (poly_getCustomParam "Scale");
  (if is_Fahrenheit scale
   then
     try_catch
       (result ← (p ← invoke (poly_addNode (new_ThermostatNode_F address address name));
                  await p);
        logger_info [PStr "Add node worked: %s"; PVal result])
       (λ err, logger_errorStack err "Add node failed:")
   else
     try_catch
       (result ← (p ← invoke (poly_addNode (new_ThermostatNode_C address address name));
                  await p);
        logger_info [PStr "Add node worked: %s"; PVal result])
       (λ err, logger_errorStack err "Add node failed:"));;
  p ← invoke (nuheat_sleep 1000); await p.

(** The [try] block of [onDiscover] and its [catch]: the value of [tstats]
    afterwards. In [authenticate().then(tstats = await thermostats())]
    the call [authenticate()] is made first, the argument of [then] is
    evaluated next (it awaits the listing and assigns it), and only then is
    the promise of [authenticate()] awaited; [then] of a non-function passes
    the promise through. *)
Definition authenticateAndList : prog (option listing) :=
  pa ← invoke nuheat_authenticate;
  pt ← invoke nuheat_thermostats;
  Await nuheat_thermostats pt (λ rt,
    match rt with
    | Rejected _ =>
        logger_error [PStr "onDiscover(): Authenticate failed"];;
        Ret (Some (Listing None))
    | Resolved tstats =>
        Await nuheat_authenticate pa (λ ra,
          match ra with
          | Rejected _ =>
              logger_error [PStr "onDiscover(): Authenticate failed"];;
              Ret tstats
          | Resolved _ => Ret tstats
          end)
    end).

(** [Controller.onDiscover()] *)
Definition onDiscover : prog unit :=
  logger_info [PStr "Getting Thermostats"];;
  tstats ← authenticateAndList;
  logger_info [PStr "Thermostat Data: "; PJson tstats];;
  match tstats with
  | None => logger_error [PStr "No thermostats found."]
  | Some tstats =>
      match Groups tstats with
      | Some groups =>
          for_of groups (λ group,
            logger_info [PStr "Group Name: "; PStr (groupName group)];;
            for_of (Thermostats group) addThermostat)
      | None => Ret tt
      end
  end.

(** ** nodeserver.js: polling *)

(** The function [doPoll] passes to [lock.acquire]. Every node object has a
    [query] method, so the test ['query' in nodes[address]] holds. *)
Definition pollSection (longPoll : bool) : prog unit :=
  logger_info [PStr "%s"; PStr (if longPoll then "Long poll" else "Short poll")];;
  nodes ← perform poly_getNodes;
  if longPoll
  then logger_info [PStr "Long Poll: Nothing yet..."]
  else
    logger_info [PStr "Short Poll: Update nodes"];;
    for_of (Object_keys nodes) (λ address,
      match nodes !! address with
      | Some this => query this
      | None => Ret tt
      end).

(** [doPoll(longPoll)] *)
Definition doPoll (longPoll : bool) : prog unit :=
  try_catch
    (Locked "poll" (pollSection longPoll) settled)
    (λ err, logger_error [PStr "Error while polling: %s"; PStr (err_message err)]).

(** [callAsync(promise)] for the promise of an [async] function [body]. *)
Definition callAsync (body : prog unit) : prog unit :=
  try_catch body
    (λ err, logger_error [PStr "Error with async function: %s %s";
                          PStr (err_message err); PStr (err_stack err)]).

(** ** The event loop *)

(** What the host delivers: a poll tick, or the settlement of the promise
    the [i]-th suspended function awaits. *)
Inductive loop_event : Type :=
| Poll (longPoll : bool)
| Settle (i : nat).

Definition resume (E : env) (t : task) (w : world) : world :=
  let id := promise_id (task_promise t) in
  let r := settle E (task_call t) id in
  let '(s, w') := advance E (task_cont t r)
                    (awaited E (task_call t) id (is_resolved r) w) in
  park s w'.

Definition deliver (E : env) (w : world) (ev : loop_event) : world :=
  match ev with
  | Poll longPoll => (run E (callAsync (doPoll longPoll)) w).2
  | Settle i =>
      match pending w !! i with
      | Some t => resume E t (set_pending (delete i (pending w)) w)
      | None => w
      end
  end.

(** The reconciliation work in flight: the queries that have started and
    not finished. *)
Definition in_flight (w : world) : list call := task_call <$> pending w.

(** ** Observations and example hosts *)

(** [this.getDriver(drv).value] of the node registered under [address]. *)
Definition driver_value (w : world) (address drv : string) : option jsval :=
  match nodes w !! address with
  | Some n => drv_value <$> node_drivers n !! drv
  | None => None
  end.

(** The events of [w'] that [w] does not have yet. *)
Definition events_since (w w' : world) : list event :=
  drop (length (trace w)) (trace w').

(** Classifiers of events. *)
Definition is_authenticate (c : call) : bool :=
  match c with nuheat_authenticate => true | _ => false end.

Definition is_addNode (c : call) : bool :=
  match c with poly_addNode _ => true | _ => false end.

Definition starts (which : call → bool) (ev : event) : bool :=
  match ev with Started c _ => which c | _ => false end.

Definition awaits (which : call → bool) (ev : event) : bool :=
  match ev with Awaited c _ _ => which c | _ => false end.

Definition sets_driver (ev : event) : bool :=
  match ev with Called (Node_setDriver _ _ _) => true | _ => false end.

Definition count (which : event → bool) (evs : list event) : nat :=
  length (List.filter which evs).

(** A log line at an error level that shows the text [s]; [errorStack]
    prints the message and the stack of its error. *)
Definition part_shows (s : string) (p : logpart) : bool :=
  match p with
  | PStr s' => String.eqb s s'
  | PErr e => String.eqb s (err_message e) || String.eqb s (err_stack e)
  | _ => false
  end.

Definition error_line_shows (s : string) (ev : event) : bool :=
  match ev with
  | Called (logger ERROR parts) | Called (logger ERROR_STACK parts) =>
      existsb (part_shows s) parts
  | _ => false
  end.

Definition logged_with_message_and_stack (err : error) (evs : list event) : bool :=
  existsb (λ ev, error_line_shows (err_message err) ev &&
                 error_line_shows (err_stack err) ev) evs.

(** [doPoll] as the specification words it: it returns normally, an
    exception of the locked section or of the lock is logged with message
    and stack, and the lock is free afterwards unless it was never taken. *)
Definition doPoll_spec (E : env) (longPoll : bool) (w : world) : Prop :=
  ∃ w',
    run E (doPoll longPoll) w = (Resolved tt, w') ∧
    (∀ err w1,
       run E (Locked "poll" (pollSection longPoll) settled) w = (Rejected err, w1) →
       logged_with_message_and_stack err (events_since w w') = true) ∧
    (lock_busy E "poll" w = false → "poll" ∉ held w').

(** Discovery, read off the events of a pass: the scale reads, the nodes
    handed to [addNode], how each [addNode] settled, the failures logged. *)
Definition reads_scale (ev : event) : bool :=
  match ev with
  | Called (poly_getCustomParam key) => String.eqb key "Scale"
  | _ => false
  end.

Definition error_stack_line (ev : event) : bool :=
  match ev with Called (logger ERROR_STACK _) => true | _ => false end.

Definition created (evs : list event) : list node :=
  omap (λ ev, match ev with Started (poly_addNode n) _ => Some n | _ => None end) evs.

Definition addNode_outcomes (evs : list event) : list bool :=
  omap (λ ev, match ev with Awaited (poly_addNode _) _ ok => Some ok | _ => None end) evs.

(** The line [logger.errorStack(err, 'Add node failed:')] writes. *)
Definition addNode_failed (err : error) : event :=
  Called (logger ERROR_STACK [PErr err; PStr "Add node failed:"]).

(** The thermostats of a listing, in the order the loops visit them. *)
Definition stats_of (groups : list group) : list thermostat :=
  concat (Thermostats <$> groups).

Definition variant_of_scale (scale : jsval) : nodeDefId :=
  if is_Fahrenheit scale then THERMOSTAT_F else THERMOSTAT_C.

(** One scale per discovery pass, as the specification words it: the
    parameter is read once and all the nodes created have one variant. *)
Definition single_variant_spec (E : env) (w : world) : Prop :=
  let evs := events_since w (run E onDiscover w).2 in
  count reads_scale evs = 1 ∧
  ∀ n1 n2, n1 ∈ created evs → n2 ∈ created evs → node_id n1 = node_id n2.

(** Mutual exclusion of passes, as the specification words it: whatever the
    host delivers, at most one piece of reconciliation work is in flight. *)
Definition mutual_exclusion_spec (E : env) (w : world) : Prop :=
  ∀ evs : list loop_event, length (in_flight (foldl (deliver E) w evs)) ≤ 1.

(** Discovery after a failed authentication, as the specification words
    it: no node is handed to [addNode] and nothing is thrown. *)
Definition auth_failure_spec (E : env) (w : world) : Prop :=
  (∀ t, is_resolved (settle E nuheat_authenticate t) = false) →
  (run E onDiscover w).1 = Resolved tt ∧
  count (starts is_addNode) (events_since w (run E onDiscover w).2) = 0.

(** [stat.SerialNumber.toString()]: the address of the node of [stat]. *)
Definition address_of (stat : thermostat) : string :=
  serial_toString (SerialNumber stat).

(** [getCustomParam('Scale')] on the parameters [p]. *)
Definition scale_of (p : gmap string string) : jsval :=
  match p !! "Scale" with
  | Some s => VStr s
  | None => VUndefined
  end.

(** The parameters in force after the events [evs] of a function that was
    at tick [c] with the parameters [p]: every event takes one tick, and a
    configuration of the hub arrives while the function is suspended, at an
    [await] (see [awaited]). *)
Fixpoint params_through (E : env) (c : nat) (p : gmap string string)
    (evs : list event) : gmap string string :=
  match evs with
  | [] => p
  | ev :: evs' =>
      params_through E (S c)
        (match ev with
         | Awaited _ _ _ => default p (reconfigure E c)
         | _ => p
         end) evs'
  end.

(** Every node handed to [addNode] comes right after a read of the scale
    and has the variant of the scale in force at that read; [c] and [p] are
    the tick and the parameters at the start of [evs]. *)
Definition reads_then_creates (E : env) (c : nat) (p : gmap string string)
    (evs : list event) : Prop :=
  ∀ pre n t post,
    evs = pre ++ Started (poly_addNode n) t :: post →
    ∃ pre', pre = pre' ++ [Called (poly_getCustomParam "Scale")] ∧
            node_id n = variant_of_scale (scale_of (params_through E c p pre')).

(** What a stretch of a discovery pass from [w] to [w'] over the
    thermostats [stats] did, on any host. *)
Definition pass_summary (E : env) (w w' : world) (stats : list thermostat) : Prop :=
  ∃ evs,
    trace w' = trace w ++ evs ∧
    clock w' = clock w + length evs ∧
    params w' = params_through E (clock w) (params w) evs ∧
    count reads_scale evs = length stats ∧
    length (created evs) = length stats ∧
    reads_then_creates E (clock w) (params w) evs.

(** What a stretch of a discovery pass from [w] to [w'] over the
    thermostats [stats] did, on a hub that refuses with [err] the nodes whose
    address [refuses] marks and accepts the others. *)
Definition pass_hub (refuses : string → bool) (err : error) (w w' : world)
    (stats : list thermostat) : Prop :=
  ∃ evs,
    trace w' = trace w ++ evs ∧
    node_address <$> created evs = address_of <$> stats ∧
    addNode_outcomes evs = (λ stat, negb (refuses (address_of stat))) <$> stats ∧
    List.filter error_stack_line evs =
      (λ _, addNode_failed err) <$> List.filter (λ stat, refuses (address_of stat)) stats ∧
    node_address <$> registered w' =
      (node_address <$> registered w) ++
      (address_of <$> List.filter (λ stat, negb (refuses (address_of stat))) stats).

(** The set-point command as the specification words it: on either
    thermostat variant the vendor receives the converted value and the
    [CLISPH] driver takes the inbound one. *)
Definition setpoint_spec (E : env) (this : node) (message : message) (w : world) : Prop :=
  ∃ handler w',
    setPointHeat this message = Some handler ∧
    run E handler w = (Resolved tt, w') ∧
    (∃ t, Started (nuheat_setPointHeat (node_address this)
                     (FtoJC E (msg_value message))) t ∈ events_since w w') ∧
    driver_value w' (node_address this) "CLISPH" = Some (msg_value message).

(** A vendor client whose converters work on numbers. *)
Definition Fahrenheit_of (v : jsval) : jsval :=
  match v with
  | VNum x => VNum (x * 9 / 5 + 32)%float
  | _ => v
  end.

Definition Celsius_of (v : jsval) : jsval :=
  match v with
  | VNum x => VNum ((x - 32) * 5 / 9)%float
  | _ => v
  end.

Definition kitchen : thermostat := Thermostat "Kitchen" (SerialString "12345").
Definition bath : thermostat := Thermostat "Bath" (SerialInteger 67890).
Definition house : listing := Listing (Some [Group "Home" [kitchen; bath]]).

(** A vendor whose session is valid. *)
Definition vendor_up (c : call) (t : nat) : outcome (call_result c) :=
  match c with
  | storage_getItem _ => Resolved (VStr "session")
  | nuheat_authenticate => Resolved tt
  | nuheat_thermostats => Resolved (Some house)
  | nuheat_thermostat _ =>
      Resolved (Some (StatInfo (VNum 21) (VNum 22) (VNum 1) (VBool true)))
  | nuheat_setPointHeat _ _ => Resolved tt
  | nuheat_sleep _ => Resolved tt
  | poly_addNode _ => Resolved (VStr "added")
  end.

(** A vendor whose session has expired: fetches return [null]. *)
Definition vendor_expired (c : call) (t : nat) : outcome (call_result c) :=
  match c as c' return outcome (call_result c') with
  | nuheat_thermostat _ => Resolved None
  | c' => vendor_up c' t
  end.

Definition lock_timed_out (key : string) : error :=
  Error ("async-lock timed out in queue " +:+ key) "Error: async-lock timed out".

Definition host_with (settle : ∀ c : call, nat → outcome (call_result c)) : env :=
  Env (λ _ _, None) Fahrenheit_of Celsius_of settle (λ _, None) (λ _, false)
      lock_timed_out.

Definition host : env := host_with vendor_up.
Definition host_expired : env := host_with vendor_expired.

(** A host whose registry throws. *)
Definition registry_down : error :=
  Error "registry unavailable" "Error: registry unavailable at getNodes".

Definition host_registry_down : env :=
  Env (λ o _, match o with poly_getNodes => Some registry_down | _ => None end)
      Fahrenheit_of Celsius_of vendor_up (λ _, None) (λ _, false) lock_timed_out.

(** A vendor that rejects the credentials while the stored session still
    lists the thermostats. *)
Definition unauthorized : error :=
  Error "Authentication failed" "Error: Authentication failed at authenticate".

Definition vendor_unauthorized (c : call) (t : nat) : outcome (call_result c) :=
  match c as c' return outcome (call_result c') with
  | nuheat_authenticate => Rejected unauthorized
  | c' => vendor_up c' t
  end.

Definition host_unauthorized : env := host_with vendor_unauthorized.

(** A vendor that lists four thermostats in two groups, and a hub that
    refuses the node with address [67890], the second of them. *)
Definition refused : error := Error "addnode failed" "Error: addnode failed".

Definition office : thermostat := Thermostat "Office" (SerialInteger 24680).
Definition garage : thermostat := Thermostat "Garage" (SerialString "13579").

Definition estate : list group :=
  [Group "Home" [kitchen; bath; office]; Group "Annex" [garage]].

Definition hub_refuses_bath (c : call) (t : nat) : outcome (call_result c) :=
  match c as c' return outcome (call_result c') with
  | nuheat_thermostats => Resolved (Some (Listing (Some estate)))
  | poly_addNode n =>
      if String.eqb (node_address n) "67890" then Rejected refused
      else Resolved (VStr "added")
  | c' => vendor_up c' t
  end.

Definition host_refuses_bath : env := host_with hub_refuses_bath.

(** A host on which the user switches the scale to Celsius while discovery
    sleeps after its first node. *)
Definition host_rescaled : env :=
  Env (λ _ _, None) Fahrenheit_of Celsius_of vendor_up
      (λ t, if Nat.eqb t 12 then Some (<[ "Scale" := "Celsius" ]> defaultParams)
            else None)
      (λ _, false) lock_timed_out.

Definition controller : node := new_ControllerNode "controller" "controller" "NuHeat".
Definition kitchen_F : node := new_ThermostatNode_F "12345" "12345" "Kitchen".
Definition kitchen_C : node := new_ThermostatNode_C "12345" "12345" "Kitchen".

(** A hub that knows the nodes [ns] and has the default configuration. *)
Definition hub (ns : list node) : world :=
  World 0 [] defaultParams (list_to_map ((λ n, (node_address n, n)) <$> ns)) [] ∅ [].

(** ** What a function can do *)

(** Every synchronous call of the function satisfies [P], every
    asynchronous call it makes or awaits satisfies [Q], and every lock key
    it takes satisfies [L]; the functions it calls without awaiting them
    included. *)
Inductive within (P : op → Prop) (Q : call → Prop) (L : string → Prop)
  : ∀ R : Type, prog R → Prop :=
| within_Ret R (r : R) : within P Q L R (Ret r)
| within_Throw R e : within P Q L R (Throw e)
| within_Do R o k :
    P o → (∀ r, within P Q L R (k r)) → within P Q L R (Do o k)
| within_Start R c k :
    Q c → (∀ pr, within P Q L R (k pr)) → within P Q L R (Start c k)
| within_Await R c pr k :
    Q c → (∀ r, within P Q L R (k r)) → within P Q L R (Await c pr k)
| within_Fork R body k :
    within P Q L unit body → within P Q L R k → within P Q L R (Fork body k)
| within_Locked R key fn k :
    L key → within P Q L unit fn → (∀ r, within P Q L R (k r)) →
    within P Q L R (Locked key fn k)
| within_Critical R key fn k :
    L key → within P Q L unit fn → (∀ r, within P Q L R (k r)) →
    within P Q L R (Critical key fn k).
Arguments within P Q L {R} p.

(** The suspended functions of a world stay within [P], [Q] and [L]. *)
Definition task_within (P : op → Prop) (Q : call → Prop) (L : string → Prop)
    (t : task) : Prop :=
  Q (task_call t) ∧ ∀ r, within P Q L (task_cont t r).

Definition status_within (P : op → Prop) (Q : call → Prop) (L : string → Prop)
    {R : Type} (s : status R) : Prop :=
  match s with
  | Done _ => True
  | Blocked c _ k => Q c ∧ ∀ r, within P Q L (k r)
  end.

(** An event a function within [P], [Q] and [L] can leave. *)
Definition event_within (P : op → Prop) (Q : call → Prop) (L : string → Prop)
    (ev : event) : Prop :=
  match ev with
  | Called o => P o
  | Started c _ | Awaited c _ _ => Q c
  | Unhandled _ => True
  | LockTimedOut key => L key
  end.

Definition any_op (o : op) : Prop := True.
Definition any_call (c : call) : Prop := True.
Definition no_key (key : string) : Prop := False.

Definition is_timeout (ev : event) : bool :=
  match ev with LockTimedOut _ => true | _ => false end.

(** The bounds of the functions of the node server. *)
Definition writes_only (address : string) (o : op) : Prop :=
  match o with
  | Node_setDriver a _ _ => a = address
  | _ => True
  end.

Definition not_addNode (c : call) : Prop := is_addNode c = false.

Definition discovery_op (o : op) : Prop :=
  match o with
  | logger _ _ | poly_getCustomParam _ => True
  | _ => False
  end.

Definition discovery_call (c : call) : Prop :=
  match c with
  | nuheat_authenticate | nuheat_thermostats | poly_addNode _ | nuheat_sleep _ => True
  | _ => False
  end.

(** A suspended function that takes no lock. *)
Definition lock_free (t : task) : Prop := task_within any_op any_call no_key t.

(** The keys held are [h] and [n] acquisitions have timed out so far. *)
Definition locks_as (h : gset string) (n : nat) (w : world) : Prop :=
  held w = h ∧ count is_timeout (trace w) = n.

(** More classifiers of events. *)
Definition calls_base_query (ev : event) : bool :=
  match ev with Called (Node_query _) => true | _ => false end.

Definition is_sleep (c : call) : bool :=
  match c with nuheat_sleep _ => true | _ => false end.

Definition is_Fahrenheit_node (n : node) : bool :=
  match node_id n with THERMOSTAT_F => true | _ => false end.

(** The events of a long poll: log lines, the registry read, a timeout. *)
Definition long_poll_event (ev : event) : Prop :=
  match ev with
  | Called (logger _ _) | Called poly_getNodes | LockTimedOut _ => True
  | _ => False
  end.

(** The node discovery creates for a listed thermostat under a scale. *)
Definition node_of (scale : jsval) (stat : thermostat) : node :=
  new_Thermostat scale (serial_toString (SerialNumber stat)) (Room stat).

(** A stretch of a discovery pass that created the nodes [ns], slept once
    after each and saw no change of configuration. *)
Definition pass_nodes (w w' : world) (ns : list node) : Prop :=
  ∃ evs,
    trace w' = trace w ++ evs ∧
    created evs = ns ∧
    count (awaits is_sleep) evs = length ns ∧
    params w' = params w.

(** A vendor whose listing call returns [null], and one whose listing call
    is rejected. *)
Definition vendor_expired_listing (c : call) (t : nat) : outcome (call_result c) :=
  match c as c' return outcome (call_result c') with
  | nuheat_thermostats => Resolved None
  | c' => vendor_up c' t
  end.

Definition vendor_listing_down (c : call) (t : nat) : outcome (call_result c) :=
  match c as c' return outcome (call_result c') with
  | nuheat_thermostats => Rejected unauthorized
  | c' => vendor_up c' t
  end.

Definition host_expired_listing : env := host_with vendor_expired_listing.
Definition host_listing_down : env := host_with vendor_listing_down.

(** ** nodeserver.js: the lifecycle handlers *)

(** The synchronous host calls that only the lifecycle handlers and the
    controller's commands make: the rest of the Polyglot interface, the
    file system and the markdown converter. *)
Inductive lifecycle_op : Type :=
| poly_isCloud
| poly_removeNoticesAll
| poly_updateProfileIfNew
| poly_updateProfile
| poly_setCustomParamsDoc (html : string)
| poly_saveCustomParams (saved : gmap string string)
| poly_addNoticeTemp (key text : string) (seconds : Z)
| poly_stop
| fs_readFileSync (path : string)
| markdown_toHTML (md : string).

Definition lifecycle_result (h : lifecycle_op) : Type :=
  match h with
  | poly_isCloud => bool
  | fs_readFileSync _ | markdown_toHTML _ => string
  | _ => unit
  end.

(** A handler: stretches of code over the calls of [prog], the calls above
    in between, and [async] functions called without awaiting them. *)
Inductive script (R : Type) : Type :=
| Finish (r : R)
| Raise (e : error)
| Call (h : lifecycle_op) (k : outcome (lifecycle_result h) → script R)
| Base (p : prog unit) (k : outcome unit → script R)
| Spawn (body : script unit) (k : script R).
Arguments Finish {R} r.
Arguments Raise {R} e.
Arguments Call {R} h k.
Arguments Base {R} p k.
Arguments Spawn {R} body k.

Definition finished {A : Type} (r : outcome A) : script A :=
  match r with Resolved a => Finish a | Rejected e => Raise e end.

Fixpoint then_ {A B : Type} (s : script A) (f : A → script B) : script B :=
  match s with
  | Finish a => f a
  | Raise e => Raise e
  | Call h k => Call h (λ r, then_ (k r) f)
  | Base p k => Base p (λ r, then_ (k r) f)
  | Spawn body k => Spawn body (then_ k f)
  end.

(** [try { s } catch (err) { h err }] *)
Fixpoint try_script {R : Type} (s : script R) (h : error → script R) : script R :=
  match s with
  | Finish r => Finish r
  | Raise e => h e
  | Call c k => Call c (λ r, try_script (k r) h)
  | Base p k => Base p (λ r, try_script (k r) h)
  | Spawn body k => Spawn body (try_script k h)
  end.

Declare Scope script_scope.
Delimit Scope script_scope with script.
Bind Scope script_scope with script.
Notation "x ← s ; t" := (then_ s (λ x, t))
  (at level 20, s at level 100, t at level 200, only parsing) : script_scope.
Notation "s ;; t" := (then_ s (λ _, t))
  (at level 100, t at level 200, right associativity, only parsing) : script_scope.

Definition ask (h : lifecycle_op) : script (lifecycle_result h) := Call h finished.
Definition code (p : prog unit) : script unit := Base p finished.

(** What the lifecycle handlers do not decide: the host of the node server's
    other functions, which of the calls above throw, the text of a file,
    the HTML of a markdown text and whether the server runs in the cloud. *)
Record lifecycle_env := LifecycleEnv {
  inner : env;
  failing : lifecycle_op → nat → option error;
  file_text : string → string;
  html_of : string → string;
  in_cloud : bool
}.

(** A suspended handler. *)
Record job := Job {
  job_call : call;
  job_promise : promise job_call;
  job_cont : outcome (call_result job_call) → script unit
}.

(** The world, the calls above made so far, and the suspended handlers. *)
Record server := Server {
  base : world;
  requests : list lifecycle_op;
  waiting : list job
}.

Definition set_base (w : world) (s : server) : server :=
  Server w (requests s) (waiting s).

Definition requested (h : lifecycle_op) (s : server) : server :=
  Server (base s) (requests s ++ [h]) (waiting s).

Definition lifecycle_return (E : lifecycle_env) (h : lifecycle_op) : lifecycle_result h :=
  match h with
  | poly_isCloud => in_cloud E
  | fs_readFileSync path => file_text E path
  | markdown_toHTML md => html_of E md
  | poly_removeNoticesAll | poly_updateProfileIfNew | poly_updateProfile
  | poly_setCustomParamsDoc _ | poly_saveCustomParams _
  | poly_addNoticeTemp _ _ _ | poly_stop => tt
  end.

(** Reading the property [poly.isCloud] does not throw. *)
Definition fails (E : lifecycle_env) (h : lifecycle_op) (t : nat) : option error :=
  match h with
  | poly_isCloud => None
  | _ => failing E h t
  end.

Definition exec_call (E : lifecycle_env) (h : lifecycle_op) (s : server)
  : outcome (lifecycle_result h) * server :=
  match fails E h (length (requests s)) with
  | Some e => (Rejected e, requested h s)
  | None => (Resolved (lifecycle_return E h), requested h s)
  end.

Inductive script_status (R : Type) : Type :=
| Ended (r : outcome R)
| Waiting (c : call) (p : promise c) (k : outcome (call_result c) → script R).
Arguments Ended {R} r.
Arguments Waiting {R} c p k.

Definition shelve (st : script_status unit) (s : server) : server :=
  match st with
  | Ended (Resolved _) => s
  | Ended (Rejected e) => set_base (tick (Unhandled e) (base s)) s
  | Waiting c p k => Server (base s) (requests s) (waiting s ++ [Job c p k])
  end.

(** Run a handler up to its first suspension. *)
Fixpoint start {R : Type} (E : lifecycle_env) (s : script R) (v : server)
  : script_status R * server :=
  match s with
  | Finish r => (Ended (Resolved r), v)
  | Raise e => (Ended (Rejected e), v)
  | Call h k => let '(r, v') := exec_call E h v in start E (k r) v'
  | Base p k =>
      let '(st, w') := advance (inner E) p (base v) in
      match st with
      | Done r => start E (k r) (set_base w' v)
      | Blocked c pr k' => (Waiting c pr (λ r, Base (k' r) k), set_base w' v)
      end
  | Spawn body k => let '(st, v') := start E body v in start E k (shelve st v')
  end.

(** Run a handler to its end. *)
Fixpoint perform_script {R : Type} (E : lifecycle_env) (s : script R) (v : server)
  : outcome R * server :=
  match s with
  | Finish r => (Resolved r, v)
  | Raise e => (Rejected e, v)
  | Call h k => let '(r, v') := exec_call E h v in perform_script E (k r) v'
  | Base p k =>
      let '(r, w') := run (inner E) p (base v) in
      perform_script E (k r) (set_base w' v)
  | Spawn body k => let '(st, v') := start E body v in perform_script E k (shelve st v')
  end.

(** The configuration the hub sends. *)
Record config := Config {
  config_nodes : gmap string node;
  config_customParams : gmap string string;
  config_isInitialConfig : bool;
  config_newParamsDetected : bool
}.

(** [autoCreateController()] *)
Definition autoCreateController : script unit :=
  (code (try_catch
           (_ ← (p ← invoke (poly_addNode
                                (new_ControllerNode "controller" "controller" "NuHeat"));
                 await p);
            Ret tt)
           (λ err, logger_error [PStr "Error creating controller node"]));;
   ask (poly_addNoticeTemp "newController" "Controller node initialized" 5))%script.

(** [callAsync(promise)] for the promise of a handler. *)
Definition callAsync_script (body : script unit) : script unit :=
  try_script body
    (λ err, code (logger_error [PStr "Error with async function: %s %s";
                                PStr (err_message err); PStr (err_stack err)])).

(** The number that [%d] prints. *)
Definition count_value (n : nat) : jsval :=
  VNum (PrimFloat.of_uint63 (Uint63.of_Z (Z.of_nat n))).

(** The handler of [config]. *)
Definition onConfig (config : config) : script unit :=
  (let nodesCount := length (Object_keys (config_nodes config)) in
   code (logger_info [PStr "Config received has %d nodes"; PVal (count_value nodesCount)]);;
   if config_isInitialConfig config
   then
     ask poly_removeNoticesAll;;
     isCloud ← ask poly_isCloud;
     (if isCloud
      then
        code (logger_info [PStr "Running nodeserver in the cloud"]);;
        ask poly_updateProfileIfNew
      else
        code (logger_info [PStr "Running nodeserver on-premises"]);;
        md ← ask (fs_readFileSync "./configdoc.md");
        html ← ask (markdown_toHTML md);
        ask (poly_setCustomParamsDoc html));;
     match initializeCustomParams (config_customParams config) with
     | Some saved => ask (poly_saveCustomParams saved)
     | None => Finish tt
     end;;
     (if Nat.eqb nodesCount 0
      then
        try_script
          (code (logger_info [PStr "Auto-creating controller"]);;
           Spawn (callAsync_script autoCreateController) (Finish tt))
          (λ err, code (logger_error [PStr "Error while auto-creating controller node:";
                                      PErr err]))
      else Finish tt);;
     if config_newParamsDetected config
     then code (logger_info [PStr "New parameters detected"])
     else Finish tt
   else Finish tt)%script.

(** The handler of [stop]. *)
Definition onStop : script unit :=
  (code (logger_info [PStr "Graceful stop"]);;
   code (doPoll false);;
   code (doPoll true);;
   ask poly_stop)%script.

(** [Controller.onUpdateProfile()] and [Controller.onRemoveNotices()] *)
Definition onUpdateProfile : script unit := ask poly_updateProfile.
Definition onRemoveNotices : script unit := ask poly_removeNoticesAll.

(** The handler that [this.commands] of a node holds under its own key
    [cmd]: the tables of [ControllerNode], [ThermostatNode_F] and
    [ThermostatNode_C]. [onDiscover] is an [async] method. *)
Definition commands (this : node) (cmd : string) (message : message)
  : option (script unit) :=
  if String.eqb cmd "QUERY" then Some (code (query this))
  else if String.eqb cmd "CLISPH" then code <$> setPointHeat this message
  else match node_id this with
       | CONTROLLER =>
           if String.eqb cmd "DISCOVER" then Some (code (Fork onDiscover (Ret tt)))
           else if String.eqb cmd "UPDATE_PROFILE" then Some onUpdateProfile
           else if String.eqb cmd "REMOVE_NOTICES" then Some onRemoveNotices
           else None
       | THERMOSTAT_F | THERMOSTAT_C => None
       end.

(** The host calls of the lifecycle handlers do not throw. *)
Definition calm (E : lifecycle_env) : Prop := ∀ h t, failing E h t = None.

Definition controller_notice : lifecycle_op :=
  poly_addNoticeTemp "newController" "Controller node initialized" 5.

(** The calls an initial configuration makes before it looks at the nodes. *)
Definition startup_requests (E : lifecycle_env) (currentParams : gmap string string)
  : list lifecycle_op :=
  [poly_removeNoticesAll; poly_isCloud]
  ++ (if in_cloud E
      then [poly_updateProfileIfNew]
      else [fs_readFileSync "./configdoc.md";
            markdown_toHTML (file_text E "./configdoc.md");
            poly_setCustomParamsDoc (html_of E (file_text E "./configdoc.md"))])
  ++ match initializeCustomParams currentParams with
     | Some saved => [poly_saveCustomParams saved]
     | None => []
     end.

Definition is_start (ev : event) : bool :=
  match ev with Started _ _ => true | _ => false end.

(** A server in the world [w] that has made no lifecycle call yet. *)
Definition server_of (w : world) : server := Server w [] [].

(** An on-premises installation whose configuration document is there. *)
Definition premises : lifecycle_env :=
  LifecycleEnv host (λ _ _, None) (λ _, "# NuHeat") (λ _, "<h1>NuHeat</h1>") false.

Definition no_such_file : error :=
  Error "ENOENT: no such file or directory, open './configdoc.md'"
        "Error: ENOENT: no such file or directory, open './configdoc.md'".

(** The same installation without the document. *)
Definition premises_without_doc : lifecycle_env :=
  LifecycleEnv host
    (λ h _, match h with fs_readFileSync _ => Some no_such_file | _ => None end)
    (λ _, "# NuHeat") (λ _, "<h1>NuHeat</h1>") false.

(** The first configuration of a fresh installation, and a later one. *)
Definition first_config : config := Config ∅ ∅ true false.
Definition later_config : config := Config ∅ ∅ false true.

(** * Properties *)

(** ** Configuration reconciliation *)

Lemma dom_defaultParams :
  dom defaultParams = ({[emailParam; pwParam; tempScale]} : gset string).
Proof.
  unfold defaultParams, defaultParams_literal. simpl.
  rewrite !dom_insert_L, dom_empty_L. set_solver.
Qed.

Lemma elem_of_dom_defaultParams key :
  key ∈ dom defaultParams ↔ key = emailParam ∨ key = pwParam ∨ key = tempScale.
Proof.
  rewrite dom_defaultParams, !elem_of_union, !elem_of_singleton. tauto.
Qed.

Lemma elem_of_defaultParamKeys key :
  key ∈ defaultParamKeys ↔ key ∈ dom defaultParams.
Proof.
  rewrite elem_of_dom_defaultParams.
  unfold defaultParamKeys, defaultParams_literal. simpl.
  rewrite !elem_of_cons, elem_of_nil. tauto.
Qed.

Lemma defaultParamKeys_not_inherited key :
  key ∈ defaultParamKeys → key ∉ Object_prototype_keys.
Proof.
  unfold defaultParamKeys, defaultParams_literal, Object_prototype_keys. simpl.
  intros Hk Hp.
  repeat (apply elem_of_cons in Hk as [-> | Hk];
          [ repeat (apply elem_of_cons in Hp as [Hp | Hp]; [discriminate Hp |]);
            by apply elem_of_nil in Hp | ]).
  by apply elem_of_nil in Hk.
Qed.

Lemma elem_of_Object_keys {V} (o : gmap string V) key :
  key ∈ Object_keys o ↔ key ∈ dom o.
Proof.
  unfold Object_keys. rewrite elem_of_dom, list_elem_of_fmap. split.
  - intros [[k v] [-> Hin]]. apply elem_of_map_to_list in Hin. by exists v.
  - intros [v Hv]. exists (key, v). split; [done |].
    by apply elem_of_map_to_list.
Qed.

Lemma dom_customParams current : dom (customParams current) = dom defaultParams.
Proof.
  rewrite dom_defaultParams. unfold customParams, defaultParamKeys. simpl.
  rewrite !dom_insert_L, dom_empty_L. set_solver.
Qed.

Lemma lookup_customParams current key :
  key ∈ dom defaultParams →
  customParams current !! key = Some (keepOrDefault current key).
Proof.
  rewrite elem_of_dom_defaultParams.
  unfold customParams, defaultParamKeys. simpl.
  intros [-> | [-> | ->]]; by simplify_map_eq.
Qed.

Lemma elem_of_differentKeys current key :
  key ∈ differentKeys current ↔
  ((key ∈ dom defaultParams) ∧ (key ∉ dom current)) ∨
  ((key ∈ dom current) ∧ (key ∉ dom defaultParams) ∧ (key ∉ Object_prototype_keys)).
Proof.
  unfold differentKeys. rewrite list_elem_of_filter, elem_of_app.
  rewrite elem_of_defaultParamKeys, elem_of_Object_keys.
  unfold js_in. rewrite orb_true_iff, !negb_true_iff, !orb_false_iff.
  rewrite !bool_decide_eq_false. split.
  - intros [[[Hd Hp] | [Hc Hp]] [Hk | Hk]]; try tauto.
  - intros [[Hd Hc] | (Hc & Hd & Hp)]; [| tauto].
    split; [| tauto]. right. split; [done |].
    by apply defaultParamKeys_not_inherited, elem_of_defaultParamKeys.
Qed.

Lemma initializeCustomParams_Some current :
  (∃ key, key ∈ differentKeys current) →
  initializeCustomParams current = Some (customParams current).
Proof.
  intros [key Hk]. unfold initializeCustomParams.
  rewrite bool_decide_eq_true_2; [done |].
  destruct (differentKeys current); [by apply elem_of_nil in Hk | done].
Qed.

Lemma initializeCustomParams_None current :
  (∀ key, key ∉ differentKeys current) →
  initializeCustomParams current = None.
Proof.
  intros Hk. unfold initializeCustomParams.
  rewrite (elem_of_nil_inv _ Hk). by rewrite bool_decide_eq_false_2 by (simpl; lia).
Qed.

(** C3 (as amended). Whenever some key that is not a property name inherited
    from [Object.prototype] is present in exactly one of the current mapping
    and the default mapping, [initializeCustomParams] calls
    [poly.saveCustomParams] with a mapping whose key set is exactly the
    default key set; each key carries its current value when that value is
    present and non-empty, and its default value otherwise. *)
Theorem initializeCustomParams_rewrite (current : gmap string string) :
  (∃ key, orphan current key ∧ key ∉ Object_prototype_keys) →
  ∃ merged,
    initializeCustomParams current = Some merged ∧
    dom merged = dom defaultParams ∧
    (∀ key v, key ∈ dom defaultParams → current !! key = Some v → v ≠ "" →
              merged !! key = Some v) ∧
    (∀ key, key ∈ dom defaultParams →
            current !! key = None ∨ current !! key = Some "" →
            merged !! key = defaultParams !! key).
Proof.
  intros (key & Horph & Hproto).
  exists (customParams current). split; [| split; [| split]].
  - apply initializeCustomParams_Some. exists key.
    apply elem_of_differentKeys. destruct Horph as [[Hc Hd] | [Hc Hd]]; tauto.
  - apply dom_customParams.
  - intros k v Hk Hv Hne. rewrite lookup_customParams by done.
    unfold keepOrDefault, truthy. rewrite Hv.
    destruct (String.eqb_spec v ""); [done | done].
  - intros k Hk Hv. rewrite lookup_customParams by done.
    assert (keepOrDefault current k = defaultParam k) as ->.
    { unfold keepOrDefault. by destruct Hv as [-> | ->]. }
    unfold defaultParam. apply elem_of_dom in Hk as [d ->]. done.
Qed.

Lemma initializeCustomParams_rewrite_witness :
  ∃ merged,
    initializeCustomParams {[ "Username" := "me@home.net"; "Legacy" := "1" ]}
      = Some merged ∧
    dom merged = dom defaultParams ∧
    merged !! "Username" = Some "me@home.net" ∧
    merged !! "Scale" = Some "Fahrenheit".
Proof.
  destruct (initializeCustomParams_rewrite
              {[ "Username" := "me@home.net"; "Legacy" := "1" ]})
    as (merged & Hsave & Hdom & Hkeep & Hdef).
  - exists "Legacy". split.
    + left. split; [compute_done | compute_done].
    + compute_done.
  - exists merged. split; [exact Hsave |]. split; [exact Hdom |]. split.
    + apply Hkeep; [compute_done | reflexivity | discriminate].
    + rewrite (Hdef "Scale"); [reflexivity | compute_done | by left].
Defined.

(** C3 as stated fails twice. A current value that is present but empty is
    replaced by the default, and an orphan key that names a property
    inherited from [Object.prototype] triggers no rewrite at all. *)
Lemma rewrite_branch_spec_fails :
  ¬ rewrite_branch_spec {[ "Username" := "" ]} ∧
  ¬ rewrite_branch_spec (<[ "toString" := "x" ]> defaultParams).
Proof.
  split.
  - intros Hspec. destruct Hspec as (merged & Hsave & _ & Hval).
    + exists "Password". right. split; compute_done.
    + specialize (Hval "Username" ltac:(compute_done)).
      rewrite initializeCustomParams_Some in Hsave
        by (exists "Password"; compute_done).
      injection Hsave as <-.
      vm_compute in Hval. discriminate Hval.
  - intros Hspec. destruct Hspec as (merged & Hsave & _).
    + exists "toString". left. split; compute_done.
    + vm_compute in Hsave. discriminate Hsave.
Qed.

(** C4. Configuration reconciliation is idempotent: running it on its own
    output gives that output again, and signals no further rewrite. *)
Theorem reconcile_idempotent (current : gmap string string) :
  reconcile (reconcile current) = reconcile current ∧
  initializeCustomParams (reconcile current) = None.
Proof.
  assert (initializeCustomParams (reconcile current) = None) as Hfix.
  { apply initializeCustomParams_None. intros key.
    rewrite elem_of_differentKeys. unfold reconcile, initializeCustomParams.
    case_bool_decide as Hlen.
    - rewrite dom_customParams. tauto.
    - assert (differentKeys current = []) as Hnil
        by (destruct (differentKeys current); [done | simpl in Hlen; lia]).
      rewrite <- elem_of_differentKeys, Hnil. apply not_elem_of_nil. }
  split; [| exact Hfix].
  unfold reconcile at 1. by rewrite Hfix.
Qed.

(** ** The interpreter *)

Lemma throws_quiet E o t : quiet E → throws E o t = None.
Proof. intros HE. destruct o; simpl; auto. Qed.

Lemma exec_op_quiet E o w :
  throws E o (clock w) = None →
  exec_op E o w = (Resolved (op_return E o w), op_effect o (tick (Called o) w)).
Proof. intros H. unfold exec_op. by rewrite H. Qed.

Lemma run_bind {A B : Type} E (p : prog A) (f : A → prog B) w :
  run E (bind p f) w =
  match run E p w with
  | (Resolved a, w') => run E (f a) w'
  | (Rejected e, w') => (Rejected e, w')
  end.
Proof.
  revert f w.
  induction p as [A a | A e | A o k IH | A c k IH | A c pr k IH
                  | A body _ k IH | A key fn _ k IH | A key fn _ k IH];
    intros f w; simpl.
  - done.
  - done.
  - destruct (exec_op E o w) as [r w']. apply IH.
  - apply IH.
  - apply IH.
  - destruct (advance E body w) as [s w']. apply IH.
  - destruct (lock_busy E key w); [apply IH |].
    destruct (run E fn (hold key w)) as [r w']. apply IH.
  - destruct (run E fn w) as [r w']. apply IH.
Qed.

Lemma run_try_catch {R : Type} E (p : prog R) (h : error → prog R) w :
  run E (try_catch p h) w =
  match run E p w with
  | (Resolved a, w') => (Resolved a, w')
  | (Rejected e, w') => run E (h e) w'
  end.
Proof.
  revert h w.
  induction p as [R a | R e | R o k IH | R c k IH | R c pr k IH
                  | R body _ k IH | R key fn _ k IH | R key fn _ k IH];
    intros h w; simpl.
  - done.
  - by destruct (run E (h e) w) as [[] ?].
  - destruct (exec_op E o w) as [r w']. apply IH.
  - apply IH.
  - apply IH.
  - destruct (advance E body w) as [s w']. apply IH.
  - destruct (lock_busy E key w); [apply IH |].
    destruct (run E fn (hold key w)) as [r w']. apply IH.
  - destruct (run E fn w) as [r w']. apply IH.
Qed.

Lemma run_perform E o w :
  run E (perform o) w =
  match throws E o (clock w) with
  | Some e => (Rejected e, tick (Called o) w)
  | None => (Resolved (op_return E o w), op_effect o (tick (Called o) w))
  end.
Proof. simpl. unfold exec_op. by destruct (throws E o (clock w)). Qed.

Lemma run_logger_info E parts w :
  run E (logger_info parts) w = (Resolved tt, tick (Called (logger INFO parts)) w).
Proof. unfold logger_info. by rewrite (run_perform E (logger INFO _)). Qed.

(** ** Thermostat commands *)

(** C10. On a Celsius thermostat the [CLISPH] handler only logs the inbound
    value: for every message and every host, the one event it adds is that
    log line, and no node, registration, lock or suspended function
    changes. *)
Theorem ThermostatNode_C_setPointHeat_only_logs
    (E : env) (this : node) (message : message) (w : world) :
  let w' := (run E (ThermostatNode_C_setPointHeat this message) w).2 in
  trace w' = trace w ++
    [Called (logger INFO [PStr "setPointHeat: "; PVal (msg_value message)])] ∧
  nodes w' = nodes w ∧
  registered w' = registered w ∧
  params w' = params w ∧
  held w' = held w ∧
  pending w' = pending w.
Proof.
  unfold ThermostatNode_C_setPointHeat, logger_info.
  by rewrite (run_perform E (logger INFO _)).
Qed.

Lemma run_Do_quiet {R : Type} E o (k : outcome (op_result o) → prog R) w :
  quiet E →
  run E (Do o k) w =
  run E (k (Resolved (op_return E o w))) (op_effect o (tick (Called o) w)).
Proof. intros HE. simpl. by rewrite exec_op_quiet by by apply throws_quiet. Qed.

Lemma run_Do_logger {R : Type} E lvl parts (k : outcome unit → prog R) w :
  run E (Do (logger lvl parts) k) w =
  run E (k (Resolved tt)) (tick (Called (logger lvl parts)) w).
Proof. done. Qed.

Lemma run_Start {R : Type} E c (k : promise c → prog R) w :
  run E (Start c k) w = run E (k (Promise (clock w))) (started c w).
Proof. done. Qed.

Lemma run_Await {R : Type} E c p (k : outcome (call_result c) → prog R) w :
  run E (Await c p k) w =
  run E (k (settle E c (promise_id p)))
      (awaited E c (promise_id p) (is_resolved (settle E c (promise_id p))) w).
Proof. done. Qed.

Lemma run_Ret {R : Type} E (r : R) w : run E (Ret r) w = (Resolved r, w).
Proof. done. Qed.

Lemma run_Throw {R : Type} E e w : run E (@Throw R e) w = (Rejected e, w).
Proof. done. Qed.

Arguments run : simpl never.

(** Symbolic execution: of what needs no assumption on the host, and on a
    host whose synchronous calls do not throw. *)
Ltac run_steps :=
  repeat first
    [ rewrite run_Ret | rewrite run_Throw | rewrite run_Start
    | rewrite run_Do_logger | rewrite run_Await | progress simpl ].

Ltac run_quiet HE :=
  repeat first
    [ rewrite run_Ret | rewrite run_Throw | rewrite run_Start
    | rewrite (run_Do_quiet _ _ _ _ HE) | rewrite run_Await
    | progress simpl ].

(** X19. On a Fahrenheit thermostat, when the host's synchronous calls do
    not throw, the [CLISPH] handler converts the inbound value with
    [FtoJC], starts the vendor write for this address with the converted
    value, never awaits it, and sets the [CLISPH] driver of the node to the
    inbound value. *)
Theorem setPointHeat_Fahrenheit
    (E : env) (this : node) (message : message) (w : world) :
  quiet E →
  node_id this = THERMOSTAT_F →
  ∃ handler w',
    setPointHeat this message = Some handler ∧
    run E handler w = (Resolved tt, w') ∧
    trace w' = trace w ++
      [ Called (logger INFO [PStr "setPointHeat: "; PVal (msg_value message)]);
        Called (nuheat_FtoJC (msg_value message));
        Started (nuheat_setPointHeat (node_address this)
                   (FtoJC E (msg_value message))) (2 + clock w);
        Called (Node_setDriver (node_address this) "CLISPH" (msg_value message)) ] ∧
    nodes w' = alter (setDriver "CLISPH" (msg_value message))
                     (node_address this) (nodes w) ∧
    (is_Some (driver_value w (node_address this) "CLISPH") →
     driver_value w' (node_address this) "CLISPH" = Some (msg_value message)).
Proof.
  intros HE HF. unfold setPointHeat. rewrite HF.
  eexists _, _. split; [reflexivity |].
  unfold ThermostatNode_F_setPointHeat, logger_info, perform, invoke.
  run_quiet HE. split; [reflexivity |]. cbn.
  split; [by rewrite <- !app_assoc |]. split; [reflexivity |].
  unfold driver_value; cbn. rewrite lookup_alter_eq.
  destruct (nodes w !! node_address this) as [n |]; simpl; [| by intros [? ?]].
  rewrite lookup_alter_eq.
  destruct (node_drivers n !! "CLISPH") as [d |]; simpl; [done | by intros [? ?]].
Qed.

Lemma setPointHeat_Fahrenheit_witness :
  ∃ handler w' x,
    setPointHeat kitchen_F (Message (VNum 72)) = Some handler ∧
    run host handler (hub [kitchen_F]) = (Resolved tt, w') ∧
    Started (nuheat_setPointHeat "12345" (VNum x)) 2 ∈ trace w' ∧
    (22.125 <? x)%float = true ∧ (x <? 22.25)%float = true ∧
    driver_value w' "12345" "CLISPH" = Some (VNum 72).
Proof.
  destruct (setPointHeat_Fahrenheit host kitchen_F (Message (VNum 72))
              (hub [kitchen_F]))
    as (handler & w' & Hh & Hrun & Htrace & _ & Hdrv).
  - intros o t. reflexivity.
  - reflexivity.
  - exists handler, w', ((72 - 32) * 5 / 9)%float.
    split; [exact Hh |]. split; [exact Hrun |]. split.
    + rewrite Htrace. simpl.
      apply list_elem_of_further, list_elem_of_further, list_elem_of_here.
    + split; [vm_compute; reflexivity |]. split; [vm_compute; reflexivity |].
      apply Hdrv. exists (VStr "0"). vm_compute. reflexivity.
Defined.

(** C9 fails on the code: on a Celsius thermostat the [CLISPH] handler only
    logs the inbound value. For the value 22 on the node [12345] it ends
    normally without a vendor write and leaves the [CLISPH] driver at its
    old value, so the set-point command as specified does not hold there;
    the handler of the Fahrenheit sibling, for the same value, host and
    address, does what is specified. *)
Theorem setPointHeat_Celsius_writes_nothing :
  let message := Message (VNum 22) in
  let w := hub [kitchen_C] in
  ∃ handler w',
    setPointHeat kitchen_C message = Some handler ∧
    run host handler w = (Resolved tt, w') ∧
    events_since w w' =
      [Called (logger INFO [PStr "setPointHeat: "; PVal (VNum 22)])] ∧
    driver_value w "12345" "CLISPH" = Some (VStr "0") ∧
    driver_value w' "12345" "CLISPH" = Some (VStr "0") ∧
    ¬ setpoint_spec host kitchen_C message w ∧
    setpoint_spec host kitchen_F message (hub [kitchen_F]).
Proof.
  intros message w.
  exists (ThermostatNode_C_setPointHeat kitchen_C message),
         (run host (ThermostatNode_C_setPointHeat kitchen_C message) w).2.
  split; [reflexivity |].
  split; [vm_compute; reflexivity |].
  split; [vm_compute; reflexivity |].
  split; [vm_compute; reflexivity |].
  split; [vm_compute; reflexivity |].
  split.
  - intros (handler & w' & Hh & Hrun & _ & Hdrv).
    injection Hh as <-.
    vm_compute in Hrun. injection Hrun as <-.
    vm_compute in Hdrv. discriminate Hdrv.
  - exists (ThermostatNode_F_setPointHeat kitchen_F message),
           (run host (ThermostatNode_F_setPointHeat kitchen_F message)
                (hub [kitchen_F])).2.
    split; [reflexivity |].
    split; [vm_compute; reflexivity |].
    split; [| vm_compute; reflexivity].
    exists 2.
    replace (events_since _ _) with
      [ Called (logger INFO [PStr "setPointHeat: "; PVal (VNum 22)]);
        Called (nuheat_FtoJC (VNum 22));
        Started (nuheat_setPointHeat "12345" (FtoJC host (VNum 22))) 2;
        Called (Node_setDriver "12345" "CLISPH" (VNum 22)) ]
      by (vm_compute; reflexivity).
    apply list_elem_of_further, list_elem_of_further, list_elem_of_here.
Qed.

(** ** Query *)

(** C8. When the session read of a Fahrenheit thermostat's [query] succeeds
    and its fetch returns [null], [query] logs the error and starts
    [authenticate()] once; it does not await that promise, does not fetch
    again and calls [setDriver] not at all, so the node objects are as they
    were. *)
Theorem query_session_expired (E : env) (this : node) (w : world) :
  is_resolved (settle E (storage_getItem "sessionId") (clock w)) = true →
  settle E (nuheat_thermostat (node_address this)) (2 + clock w) = Resolved None →
  ∃ w',
    run E (ThermostatNode_F_query this) w = (Resolved tt, w') ∧
    events_since w w' =
      [ Started (storage_getItem "sessionId") (clock w);
        Awaited (storage_getItem "sessionId") (clock w) true;
        Started (nuheat_thermostat (node_address this)) (2 + clock w);
        Awaited (nuheat_thermostat (node_address this)) (2 + clock w) true;
        Called (logger ERROR [PStr "Not Authenticated... Re-Authenticating..."]);
        Started nuheat_authenticate (5 + clock w) ] ∧
    nodes w' = nodes w ∧
    registered w' = registered w.
Proof.
  intros Hsession Hfetch.
  unfold ThermostatNode_F_query, logger_error, perform, invoke, await.
  simpl. rewrite run_Start, run_Await. simpl.
  destruct (settle E (storage_getItem "sessionId") (clock w)) as [sid | e];
    [| discriminate Hsession].
  simpl. rewrite run_Start, run_Await. simpl. simpl in Hfetch. rewrite Hfetch.
  run_steps. eexists. split; [reflexivity |].
  unfold events_since. cbn. rewrite <- !app_assoc, drop_app_length.
  done.
Qed.

Lemma query_session_expired_witness :
  ∃ w',
    run host_expired (ThermostatNode_F_query kitchen_F) (hub [kitchen_F])
      = (Resolved tt, w') ∧
    count (starts is_authenticate) (events_since (hub [kitchen_F]) w') = 1 ∧
    count (awaits is_authenticate) (events_since (hub [kitchen_F]) w') = 0 ∧
    count sets_driver (events_since (hub [kitchen_F]) w') = 0 ∧
    nodes w' = nodes (hub [kitchen_F]).
Proof.
  destruct (query_session_expired host_expired kitchen_F (hub [kitchen_F]))
    as (w' & Hrun & Hev & Hnodes & _).
  - reflexivity.
  - reflexivity.
  - exists w'. split; [exact Hrun |]. rewrite Hev.
    split; [reflexivity |]. split; [reflexivity |]. split; [reflexivity |].
    exact Hnodes.
Defined.

(** ** Polling *)

Lemma run_Locked {R : Type} E key fn (k : outcome unit → prog R) w :
  run E (Locked key fn k) w =
  if lock_busy E key w
  then run E (k (Rejected (lockTimeout E key))) (tick (LockTimedOut key) w)
  else let '(r, w') := run E fn (hold key w) in run E (k r) (release key w').
Proof. done. Qed.

Lemma run_settled {A : Type} E (r : outcome A) w : run E (settled r) w = (r, w).
Proof. by destruct r. Qed.

(** C2 (as amended). [doPoll] returns normally on every host and for both
    kinds of poll.
    When the lock is busy beyond its timeout the pass is dropped: nothing of
    the locked section runs, the timeout is logged with its message and the
    lock is left to its holder. Otherwise the section runs under the lock,
    the lock is free afterwards, and an exception of the section is caught
    and logged with its message; the stack is not logged. *)
Theorem doPoll_never_throws (E : env) (longPoll : bool) (w : world) :
  ∃ w',
    run E (doPoll longPoll) w = (Resolved tt, w') ∧
    if lock_busy E "poll" w
    then
      events_since w w' =
        [ LockTimedOut "poll";
          Called (logger ERROR [PStr "Error while polling: %s";
                                PStr (err_message (lockTimeout E "poll"))]) ] ∧
      held w' = held w ∧ nodes w' = nodes w ∧ pending w' = pending w
    else
      ("poll" ∉ held w') ∧
      match run E (pollSection longPoll) (hold "poll" w) with
      | (Resolved _, w1) => w' = release "poll" w1
      | (Rejected err, w1) =>
          w' = tick (Called (logger ERROR [PStr "Error while polling: %s";
                                           PStr (err_message err)]))
                    (release "poll" w1)
      end.
Proof.
  unfold doPoll. rewrite run_try_catch, run_Locked.
  destruct (lock_busy E "poll" w).
  - rewrite run_settled. unfold logger_error.
    rewrite (run_perform E (logger ERROR _)).
    eexists. split; [reflexivity |]. unfold events_since. cbn.
    by rewrite <- !app_assoc, drop_app_length.
  - destruct (run E (pollSection longPoll) (hold "poll" w)) as [[[] | err] w1];
      rewrite run_settled.
    + eexists. split; [reflexivity |]. split; [| reflexivity].
      cbn. intros [_ Hne]%elem_of_difference. by apply Hne, elem_of_singleton.
    + unfold logger_error. rewrite (run_perform E (logger ERROR _)).
      eexists. split; [reflexivity |]. split; [| reflexivity].
      cbn. intros [_ Hne]%elem_of_difference. by apply Hne, elem_of_singleton.
Qed.

Lemma doPoll_never_throws_witness :
  ∃ w',
    run host_registry_down (doPoll false) (hub [kitchen_F]) = (Resolved tt, w') ∧
    ("poll" ∉ held w') ∧
    last (trace w') =
      Some (Called (logger ERROR [PStr "Error while polling: %s";
                                  PStr "registry unavailable"])).
Proof.
  destruct (doPoll_never_throws host_registry_down false (hub [kitchen_F]))
    as (w' & Hrun & Hrest).
  assert (lock_busy host_registry_down "poll" (hub [kitchen_F]) = false)
    as Hfree by reflexivity.
  rewrite Hfree in Hrest. destruct Hrest as [Hheld Hw'].
  exists w'. split; [exact Hrun |]. split; [exact Hheld |].
  vm_compute in Hw'. rewrite Hw'. reflexivity.
Defined.

(** C2 as stated fails on the stack: the error line of [doPoll] shows the
    message of the exception only. *)
Lemma doPoll_spec_fails_on_stack :
  ¬ doPoll_spec host_registry_down false (hub [kitchen_F]).
Proof.
  intros (w' & Hrun & Hlog & _).
  vm_compute in Hrun. injection Hrun as <-.
  pose proof (Hlog registry_down
                (run host_registry_down
                   (Locked "poll" (pollSection false) settled)
                   (hub [kitchen_F])).2) as Hshown.
  vm_compute in Hshown. specialize (Hshown eq_refl). discriminate Hshown.
Qed.

(** C1 fails on the code: the function under the lock only starts the
    queries. After one short poll the lock is free while the query it
    started is suspended; a second short poll takes the lock and starts a
    second query for the same thermostat, and once their session reads
    settle both have a vendor fetch for address [12345] pending. *)
Theorem poll_passes_overlap :
  let w0 := hub [controller; kitchen_F] in
  let w1 := deliver host w0 (Poll false) in
  let w2 := deliver host w1 (Poll false) in
  let w3 := deliver host (deliver host w2 (Settle 0)) (Settle 0) in
  held w1 = ∅ ∧
  in_flight w1 = [storage_getItem "sessionId"] ∧
  held w2 = ∅ ∧
  in_flight w2 = [storage_getItem "sessionId"; storage_getItem "sessionId"] ∧
  in_flight w3 = [nuheat_thermostat "12345"; nuheat_thermostat "12345"] ∧
  ¬ mutual_exclusion_spec host w0.
Proof.
  intros w0 w1 w2 w3.
  split; [vm_compute; reflexivity |].
  split; [vm_compute; reflexivity |].
  split; [vm_compute; reflexivity |].
  split; [vm_compute; reflexivity |].
  split; [vm_compute; reflexivity |].
  intros Hspec. specialize (Hspec [Poll false; Poll false]).
  vm_compute in Hspec. lia.
Qed.

(** ** Discovery *)

Lemma count_app which evs1 evs2 :
  count which (evs1 ++ evs2) = count which evs1 + count which evs2.
Proof. unfold count. by rewrite List.filter_app, length_app. Qed.

Lemma params_through_app E c p evs1 evs2 :
  params_through E c p (evs1 ++ evs2) =
  params_through E (c + length evs1) (params_through E c p evs1) evs2.
Proof.
  revert c p. induction evs1 as [| ev evs1 IH]; intros c p; simpl.
  - by rewrite Nat.add_0_r.
  - rewrite IH. f_equal. lia.
Qed.

Lemma params_through_same E c p evs :
  (∀ t, reconfigure E t = None) → params_through E c p evs = p.
Proof.
  intros Hsame. revert c p. induction evs as [| ev evs IH]; intros c p; simpl.
  - done.
  - rewrite IH. destruct ev; try done. by rewrite Hsame.
Qed.

Lemma reads_then_creates_none E c p evs :
  count (starts is_addNode) evs = 0 → reads_then_creates E c p evs.
Proof.
  intros Hnone pre n t post ->.
  rewrite count_app in Hnone. unfold count in Hnone. simpl in Hnone. lia.
Qed.

Lemma reads_then_creates_app E c p evs1 evs2 :
  reads_then_creates E c p evs1 →
  reads_then_creates E (c + length evs1) (params_through E c p evs1) evs2 →
  reads_then_creates E c p (evs1 ++ evs2).
Proof.
  intros H1 H2 pre n t post Heq.
  apply app_eq_app in Heq as [l [[-> Hl] | [-> Hl]]].
  - destruct l as [| ev l].
    + simpl in Hl.
      destruct (H2 [] n t post) as (pre' & Hpre & _); [by rewrite <- Hl |].
      by destruct pre'.
    + simpl in Hl. injection Hl as <- ->.
      by apply (H1 pre n t l).
  - destruct (H2 l n t post Hl) as (pre' & -> & Hn).
    exists (evs1 ++ pre'). split; [by rewrite app_assoc |].
    by rewrite params_through_app.
Qed.

Lemma elem_of_created evs n :
  n ∈ created evs → ∃ pre t post, evs = pre ++ Started (poly_addNode n) t :: post.
Proof.
  unfold created. rewrite list_elem_of_omap. intros (ev & Hin & Hev).
  apply list_elem_of_split in Hin as (pre & post & ->).
  destruct ev as [| c t | | |]; try discriminate.
  destruct c; try discriminate. injection Hev as ->. by exists pre, t, post.
Qed.

Lemma is_Fahrenheit_variant scale address name :
  node_id (new_Thermostat scale address name) = variant_of_scale scale.
Proof. unfold new_Thermostat, variant_of_scale. by destruct (is_Fahrenheit scale). Qed.

Lemma node_address_new_Thermostat scale address name :
  node_address (new_Thermostat scale address name) = address.
Proof. unfold new_Thermostat. by destruct (is_Fahrenheit scale). Qed.

(** The loops of [onDiscover], for any summary of what a stretch of a pass
    did that the parts of the pass respect. *)
Section Pass.

Variable E : env.
Variable summary : world → world → list thermostat → Prop.

Hypothesis summary_refl : ∀ w, summary w w [].
Hypothesis summary_trans : ∀ w1 w2 w3 l1 l2,
  summary w1 w2 l1 → summary w2 w3 l2 → summary w1 w3 (l1 ++ l2).
Hypothesis summary_logger : ∀ w lvl parts,
  error_stack_line (Called (logger lvl parts)) = false →
  summary w (tick (Called (logger lvl parts)) w) [].
Hypothesis summary_started : ∀ w c,
  is_addNode c = false → summary w (started c w) [].
Hypothesis summary_awaited : ∀ w c t ok,
  is_addNode c = false → summary w (awaited E c t ok w) [].
Hypothesis summary_addThermostat : ∀ w stat,
  ∃ w', run E (addThermostat stat) w = (Resolved tt, w') ∧ summary w w' [stat].

Lemma summary_then w1 w2 w3 l :
  summary w1 w2 l → summary w2 w3 [] → summary w1 w3 l.
Proof. intros H1 H2. rewrite <- (app_nil_r l). by eapply summary_trans. Qed.

Lemma run_inner_loop stats w :
  ∃ w', run E (for_of stats addThermostat) w = (Resolved tt, w') ∧
        summary w w' stats.
Proof.
  revert w.
  induction stats as [| stat stats IH]; intros w.
  - exists w. split; [reflexivity | apply summary_refl].
  - cbn [for_of]. rewrite run_bind.
    destruct (summary_addThermostat w stat) as (w1 & -> & H1).
    destruct (IH w1) as (w2 & -> & H2).
    exists w2. split; [done |].
    by apply (summary_trans w w1 w2 [stat] stats).
Qed.

Lemma run_outer_loop groups w :
  ∃ w',
    run E (for_of groups (λ group,
             logger_info [PStr "Group Name: "; PStr (groupName group)];;
             for_of (Thermostats group) addThermostat)) w = (Resolved tt, w') ∧
    summary w w' (stats_of groups).
Proof.
  revert w.
  induction groups as [| g groups IH]; intros w.
  - exists w. split; [reflexivity | apply summary_refl].
  - cbn [for_of]. rewrite !run_bind, run_logger_info.
    set (w0 := tick _ w).
    destruct (run_inner_loop (Thermostats g) w0) as (w1 & -> & H1).
    destruct (IH w1) as (w2 & -> & H2).
    exists w2. split; [done |].
    unfold stats_of. cbn [fmap list_fmap concat].
    apply (summary_trans w w1 w2); [| exact H2].
    apply (summary_trans w w0 w1 []); [by apply summary_logger | exact H1].
Qed.

(** The [try] block of [onDiscover]: once the listing has arrived,
    [tstats] holds it however [authenticate()] settles. *)
Lemma run_authenticateAndList w tstats :
  (∀ t, settle E nuheat_thermostats t = Resolved tstats) →
  ∃ w', run E authenticateAndList w = (Resolved tstats, w') ∧ summary w w' [].
Proof.
  intros Hlist. unfold authenticateAndList, invoke.
  rewrite run_bind, run_Start, run_Ret. cbv beta iota.
  rewrite run_bind, run_Start, run_Ret. cbv beta iota.
  rewrite run_Await, Hlist. cbv beta iota. rewrite run_Await.
  cbn [promise_id is_resolved].
  assert (H3 : summary w
                 (awaited E nuheat_thermostats (clock (started nuheat_authenticate w)) true
                    (started nuheat_thermostats (started nuheat_authenticate w))) []).
  { apply (summary_then _ (started nuheat_thermostats (started nuheat_authenticate w)));
      [| by apply summary_awaited].
    apply (summary_then _ (started nuheat_authenticate w));
      by apply summary_started. }
  destruct (settle E nuheat_authenticate (clock w)) as [[] | err];
    cbv beta iota; cbn [is_resolved].
  - rewrite run_Ret. eexists. split; [reflexivity |].
    eapply summary_then; [exact H3 | by apply summary_awaited].
  - unfold logger_error, perform. rewrite run_bind, run_Do_logger.
    cbn [settled]. rewrite run_Ret. cbv beta iota. rewrite run_Ret.
    eexists. split; [reflexivity |].
    eapply summary_then; [| by apply summary_logger].
    eapply summary_then; [exact H3 | by apply summary_awaited].
Qed.

(** A pass over a listing with groups runs through all of them. *)
Lemma run_onDiscover w groups :
  (∀ t, settle E nuheat_thermostats t = Resolved (Some (Listing (Some groups)))) →
  ∃ w', run E onDiscover w = (Resolved tt, w') ∧ summary w w' (stats_of groups).
Proof.
  intros Hlist. unfold onDiscover.
  rewrite run_bind, run_logger_info.
  set (w0 := tick _ w). rewrite run_bind.
  destruct (run_authenticateAndList w0 _ Hlist) as (w1 & -> & H1).
  rewrite run_bind, run_logger_info. cbn [Groups].
  set (w2 := tick _ w1).
  destruct (run_outer_loop groups w2) as (w3 & Hrun & H3).
  exists w3. split; [exact Hrun |].
  apply (summary_trans w w2 w3 []); [| exact H3].
  apply (summary_then w w1 w2); [| by apply summary_logger].
  apply (summary_trans w w0 w1 []); [by apply summary_logger | exact H1].
Qed.

End Pass.

Section Discovery.

Variable E : env.

(** The host's synchronous calls do not throw, and the pacing delay ends. *)
Hypothesis HE : quiet E.
Hypothesis Hsleep : ∀ t, settle E (nuheat_sleep 1000) t = Resolved tt.

(** One iteration of the inner loop: the scale is read, the node of that
    scale is created and handed to [addNode], the outcome is logged and the
    pacing delay awaited; a rejected [addNode] ends the iteration normally
    all the same. *)
Lemma run_addThermostat_events w stat :
  let n := new_Thermostat (getCustomParam "Scale" w) (address_of stat) (Room stat) in
  let r := settle E (poly_addNode n) (S (clock w)) in
  ∃ w',
    run E (addThermostat stat) w = (Resolved tt, w') ∧
    trace w' = trace w ++
      [ Called (poly_getCustomParam "Scale");
        Started (poly_addNode n) (S (clock w));
        Awaited (poly_addNode n) (S (clock w)) (is_resolved r);
        match r with
        | Resolved result => Called (logger INFO [PStr "Add node worked: %s"; PVal result])
        | Rejected err => addNode_failed err
        end;
        Started (nuheat_sleep 1000) (4 + clock w);
        Awaited (nuheat_sleep 1000) (4 + clock w) true ] ∧
    registered w' = registered w ++ (if is_resolved r then [n] else []) ∧
    params w' = default (default (params w) (reconfigure E (2 + clock w)))
                        (reconfigure E (5 + clock w)) ∧
    clock w' = 6 + clock w.
Proof.
  cbv zeta.
  unfold addThermostat, address_of, addNode_failed, logger_info, logger_errorStack,
    perform, invoke, await, new_Thermostat.
  simpl. rewrite (run_Do_quiet _ _ _ _ HE). simpl.
  destruct (is_Fahrenheit (getCustomParam "Scale" w)); simpl;
    rewrite run_Start, run_Await; simpl;
    match goal with |- context [settle E (poly_addNode ?n) ?t] =>
      destruct (settle E (poly_addNode n) t) as [result | err] end;
    run_quiet HE; rewrite Hsleep; run_quiet HE;
    (eexists; split; [reflexivity |]; cbn; rewrite <- ?app_assoc;
     split; [reflexivity |]; split; [by rewrite ?app_nil_r |];
     split; reflexivity).
Qed.

(** *** What every pass does *)

Lemma pass_summary_refl w : pass_summary E w w [].
Proof.
  exists []. rewrite app_nil_r, Nat.add_0_r.
  repeat split; try done. by apply reads_then_creates_none.
Qed.

Lemma pass_summary_trans w1 w2 w3 l1 l2 :
  pass_summary E w1 w2 l1 → pass_summary E w2 w3 l2 →
  pass_summary E w1 w3 (l1 ++ l2).
Proof.
  intros (evs1 & Ht1 & Hc1 & Hp1 & Hr1 & Hn1 & Hv1)
         (evs2 & Ht2 & Hc2 & Hp2 & Hr2 & Hn2 & Hv2).
  exists (evs1 ++ evs2). unfold created in *.
  rewrite omap_app, count_app, !length_app, params_through_app.
  split; [by rewrite Ht2, Ht1, app_assoc |].
  split; [lia |].
  split; [by rewrite Hp2, Hc1, Hp1 |].
  split; [lia |]. split; [lia |].
  apply reads_then_creates_app; [done |]. by rewrite <- Hc1, <- Hp1.
Qed.

(** One event that is neither a scale read nor an [addNode] call. *)
Lemma pass_summary_event w w' ev :
  trace w' = trace w ++ [ev] →
  clock w' = S (clock w) →
  params w' = params_through E (clock w) (params w) [ev] →
  reads_scale ev = false →
  starts is_addNode ev = false →
  pass_summary E w w' [].
Proof.
  intros Ht Hc Hp Hr Hs. exists [ev].
  split; [done |]. split; [simpl; lia |]. split; [done |].
  split; [unfold count; simpl; by rewrite Hr |].
  split; [destruct ev as [| [] | | |]; done |].
  apply reads_then_creates_none. unfold count. simpl. by rewrite Hs.
Qed.

Lemma pass_summary_logger w lvl parts :
  error_stack_line (Called (logger lvl parts)) = false →
  pass_summary E w (tick (Called (logger lvl parts)) w) [].
Proof. intros _. by apply (pass_summary_event _ _ (Called (logger lvl parts))). Qed.

Lemma pass_summary_started w c :
  is_addNode c = false → pass_summary E w (started c w) [].
Proof. intros Hc. by apply (pass_summary_event _ _ (Started c (clock w))). Qed.

Lemma pass_summary_awaited w c t ok :
  is_addNode c = false → pass_summary E w (awaited E c t ok w) [].
Proof. intros Hc. by apply (pass_summary_event _ _ (Awaited c t ok)). Qed.

Lemma pass_summary_addThermostat w stat :
  ∃ w', run E (addThermostat stat) w = (Resolved tt, w') ∧
        pass_summary E w w' [stat].
Proof.
  destruct (run_addThermostat_events w stat) as (w' & Hrun & Ht & _ & Hp & Hc).
  exists w'. split; [exact Hrun |].
  eexists. split; [exact Ht |].
  split; [simpl; lia |].
  split; [rewrite Hp; simpl; by destruct (settle E _ _) |].
  split; [unfold count; simpl; by destruct (settle E _ _) |].
  split; [simpl; by destruct (settle E _ _) |].
  intros pre n t post Heq.
  destruct pre as [| e0 pre]; [destruct (settle E _ _); discriminate Heq |].
  destruct pre as [| e1 pre].
  - injection Heq as <- <- <- <-. exists []. split; [done |].
    apply is_Fahrenheit_variant.
  - exfalso. injection Heq as _ _ Heq.
    repeat (destruct pre as [| ? pre];
            [destruct (settle E _ _); discriminate Heq | injection Heq as _ Heq]).
    by destruct pre.
Qed.

(** C7 (as amended). On a host whose synchronous calls do not throw and
    whose pacing delay ends, a discovery pass over [N] listed thermostats
    reads the scale [N] times and hands [N] nodes to [addNode]; every node
    handed to [addNode] comes right after a read of the scale and has the
    variant of the scale in force at that read, whatever configurations the
    hub sends during the pass: a Fahrenheit node for ['Fahrenheit'], a
    Celsius node for anything else. The parameters in force are those of
    the hub: at the end of the pass they are the parameters the hub holds.
    When the hub sends no configuration during the pass, every node has the
    variant of the scale configured at the start. *)
Theorem onDiscover_reads_scale_per_device (w : world) (groups : list group) :
  (∀ t, settle E nuheat_thermostats t = Resolved (Some (Listing (Some groups)))) →
  let evs := events_since w (run E onDiscover w).2 in
  count reads_scale evs = length (stats_of groups) ∧
  length (created evs) = length (stats_of groups) ∧
  reads_then_creates E (clock w) (params w) evs ∧
  params (run E onDiscover w).2 = params_through E (clock w) (params w) evs ∧
  ((∀ t, reconfigure E t = None) →
   Forall (λ n, node_id n = variant_of_scale (getCustomParam "Scale" w))
          (created evs)).
Proof.
  intros Hlist.
  destruct (run_onDiscover E (pass_summary E) pass_summary_refl pass_summary_trans
              pass_summary_logger pass_summary_started pass_summary_awaited
              pass_summary_addThermostat w groups Hlist)
    as (w' & Hrun & evs & Ht & _ & Hp & Hr & Hn & Hv).
  rewrite Hrun. cbn [snd]. unfold events_since. rewrite Ht, drop_app_length.
  split; [exact Hr |]. split; [exact Hn |]. split; [exact Hv |].
  split; [exact Hp |].
  intros Hsame. apply Forall_forall. intros n Hin.
  apply elem_of_created in Hin as (pre & t & post & Heq).
  destruct (Hv pre n t post Heq) as (pre' & _ & ->).
  by rewrite params_through_same.
Qed.

(** *** A hub that refuses some nodes *)

Section Refusal.

(** The hub refuses with [err] the nodes whose address [refuses] marks and
    accepts every other node. *)
Variable refuses : string → bool.
Variable err : error.
Hypothesis Hrefused : ∀ n t,
  refuses (node_address n) = true → settle E (poly_addNode n) t = Rejected err.
Hypothesis Haccepted : ∀ n t,
  refuses (node_address n) = false → is_resolved (settle E (poly_addNode n) t) = true.

Lemma pass_hub_refl w : pass_hub refuses err w w [].
Proof. exists []. by rewrite !app_nil_r. Qed.

Lemma pass_hub_trans w1 w2 w3 l1 l2 :
  pass_hub refuses err w1 w2 l1 → pass_hub refuses err w2 w3 l2 →
  pass_hub refuses err w1 w3 (l1 ++ l2).
Proof.
  intros (evs1 & Ht1 & Hc1 & Ho1 & He1 & Hg1) (evs2 & Ht2 & Hc2 & Ho2 & He2 & Hg2).
  exists (evs1 ++ evs2). unfold created, addNode_outcomes in *.
  rewrite !omap_app, !List.filter_app, !fmap_app.
  split; [by rewrite Ht2, Ht1, app_assoc |].
  split; [by rewrite Hc1, Hc2 |].
  split; [by rewrite Ho1, Ho2 |].
  split; [by rewrite He1, He2 |].
  by rewrite Hg2, Hg1, app_assoc.
Qed.

(** One event that is not of an [addNode] call and not a failure line, and
    registers nothing. *)
Lemma pass_hub_event w w' ev :
  trace w' = trace w ++ [ev] →
  registered w' = registered w →
  starts is_addNode ev = false →
  awaits is_addNode ev = false →
  error_stack_line ev = false →
  pass_hub refuses err w w' [].
Proof.
  intros Ht Hg Hs Ha He. exists [ev].
  split; [done |].
  split; [by destruct ev as [| [] | | |] |].
  split; [by destruct ev as [| | [] | |] |].
  split; [simpl; by rewrite He |].
  by rewrite Hg, app_nil_r.
Qed.

Lemma pass_hub_logger w lvl parts :
  error_stack_line (Called (logger lvl parts)) = false →
  pass_hub refuses err w (tick (Called (logger lvl parts)) w) [].
Proof. intros He. by apply (pass_hub_event _ _ (Called (logger lvl parts))). Qed.

Lemma pass_hub_started w c :
  is_addNode c = false → pass_hub refuses err w (started c w) [].
Proof. intros Hc. by apply (pass_hub_event _ _ (Started c (clock w))). Qed.

Lemma pass_hub_awaited w c t ok :
  is_addNode c = false → pass_hub refuses err w (awaited E c t ok w) [].
Proof.
  intros Hc. apply (pass_hub_event _ _ (Awaited c t ok)); try done.
  by destruct c.
Qed.

Lemma pass_hub_addThermostat w stat :
  ∃ w', run E (addThermostat stat) w = (Resolved tt, w') ∧
        pass_hub refuses err w w' [stat].
Proof.
  destruct (run_addThermostat_events w stat) as (w' & Hrun & Ht & Hg & _ & _).
  exists w'. split; [exact Hrun |].
  eexists. split; [exact Ht |].
  set (n := new_Thermostat _ _ _) in *.
  assert (Hn : node_address n = address_of stat)
    by apply node_address_new_Thermostat.
  clearbody n. rewrite Hg. unfold created, addNode_outcomes, addNode_failed.
  destruct (refuses (address_of stat)) eqn:Href.
  - rewrite (Hrefused n) by by rewrite Hn.
    cbn. rewrite Href, Hn. cbn. by rewrite !app_nil_r.
  - pose proof (Haccepted n (S (clock w))) as Hok. rewrite Hn in Hok.
    specialize (Hok Href). destruct (settle E (poly_addNode n) _); [| done].
    cbn. rewrite Href, Hn. cbn. rewrite fmap_app. cbn. by rewrite Hn.
Qed.

(** C6. On a host whose synchronous calls do not throw and whose pacing
    delay ends: when the hub refuses the node of one of the [N] listed
    thermostats, [stat], and accepts the nodes of all the others,
    [onDiscover] ends normally; the refusal is caught and logged once; the
    loop is not aborted, for all [N] nodes are handed to [addNode] in
    listing order, those listed after [stat] included, and every one but the
    node of [stat] is accepted; exactly the [N - 1] other nodes are
    registered. *)
Theorem onDiscover_partial_failure (w : world) (groups : list group)
    (before after : list thermostat) (stat : thermostat) :
  (∀ t, settle E nuheat_thermostats t = Resolved (Some (Listing (Some groups)))) →
  stats_of groups = before ++ stat :: after →
  refuses (address_of stat) = true →
  Forall (λ other, refuses (address_of other) = false) (before ++ after) →
  let evs := events_since w (run E onDiscover w).2 in
  (run E onDiscover w).1 = Resolved tt ∧
  node_address <$> created evs = address_of <$> stats_of groups ∧
  addNode_outcomes evs =
    replicate (length before) true ++ false :: replicate (length after) true ∧
  List.filter error_stack_line evs = [addNode_failed err] ∧
  node_address <$> registered (run E onDiscover w).2 =
    (node_address <$> registered w) ++ (address_of <$> before ++ after) ∧
  length (registered (run E onDiscover w).2) =
    length (registered w) + (length (stats_of groups) - 1).
Proof.
  intros Hlist Hsplit Hstat Hothers.
  destruct (run_onDiscover E (pass_hub refuses err) pass_hub_refl pass_hub_trans
              pass_hub_logger pass_hub_started pass_hub_awaited
              pass_hub_addThermostat w groups Hlist)
    as (w' & Hrun & evs & Ht & Hc & Ho & He & Hg).
  rewrite Hrun. cbn [fst snd]. unfold events_since. rewrite Ht, drop_app_length.
  apply Forall_app in Hothers as [Hbefore Hafter].
  assert (Hkeep : ∀ l, Forall (λ other, refuses (address_of other) = false) l →
            List.filter (λ s, refuses (address_of s)) l = [] ∧
            List.filter (λ s, negb (refuses (address_of s))) l = l ∧
            (λ s, negb (refuses (address_of s))) <$> l = replicate (length l) true).
  { induction 1 as [| s l Hs _ (IH1 & IH2 & IH3)]; [done |].
    cbn. rewrite Hs. cbn. by rewrite IH1, IH2, IH3. }
  destruct (Hkeep _ Hbefore) as (Hb1 & Hb2 & Hb3).
  destruct (Hkeep _ Hafter) as (Ha1 & Ha2 & Ha3).
  rewrite Hsplit in *.
  rewrite fmap_app, fmap_cons, Hstat, Hb3, Ha3 in Ho. cbn [negb] in Ho.
  rewrite List.filter_app in He, Hg. cbn [List.filter] in He, Hg.
  rewrite Hstat in He, Hg. cbn [negb] in Hg.
  rewrite Hb1, Ha1 in He. rewrite Hb2, Ha2 in Hg.
  split; [done |]. split; [exact Hc |]. split; [exact Ho |].
  split; [exact He |]. split; [exact Hg |].
  apply (f_equal length) in Hg. rewrite !length_app, !length_fmap, length_app in Hg.
  rewrite length_app. cbn [length]. lia.
Qed.

End Refusal.

End Discovery.

Lemma onDiscover_partial_failure_witness :
  let w' := (run host_refuses_bath onDiscover (hub [])).2 in
  (run host_refuses_bath onDiscover (hub [])).1 = Resolved tt ∧
  addNode_outcomes (events_since (hub []) w') = [true; false; true; true] ∧
  node_address <$> registered w' = ["12345"; "24680"; "13579"].
Proof.
  destruct (onDiscover_partial_failure host_refuses_bath) with
    (refuses := String.eqb "67890") (err := refused) (w := hub [])
    (groups := estate) (before := [kitchen]) (stat := bath) (after := [office; garage])
    as (Hr & _ & Ho & _ & Hg & _).
  - intros o t. reflexivity.
  - intros t. reflexivity.
  - intros n t Hn. cbn. rewrite String.eqb_sym, Hn. reflexivity.
  - intros n t Hn. cbn. rewrite String.eqb_sym, Hn. reflexivity.
  - intros t. reflexivity.
  - reflexivity.
  - reflexivity.
  - repeat constructor.
  - split; [exact Hr |]. split; [exact Ho | exact Hg].
Defined.

Lemma onDiscover_reads_scale_per_device_witness :
  let evs := events_since (hub []) (run host_rescaled onDiscover (hub [])).2 in
  count reads_scale evs = 2 ∧
  length (created evs) = 2 ∧
  reads_then_creates host_rescaled 0 defaultParams evs ∧
  params (run host_rescaled onDiscover (hub [])).2 !! "Scale" = Some "Celsius".
Proof.
  destruct (onDiscover_reads_scale_per_device host_rescaled) with
    (w := hub []) (groups := [Group "Home" [kitchen; bath]])
    as (Hreads & Hcreated & Hvariant & Hparams & _).
  - intros o t. reflexivity.
  - intros t. reflexivity.
  - intros t. reflexivity.
  - split; [exact Hreads |]. split; [exact Hcreated |].
    split; [exact Hvariant |]. rewrite Hparams. vm_compute. reflexivity.
Defined.

(** C7 as stated fails: with two thermostats listed the scale is read
    twice, and a change of scale during the pacing delay gives a Fahrenheit
    node followed by a Celsius node. *)
Lemma single_variant_spec_fails :
  ¬ single_variant_spec host (hub []) ∧
  ¬ single_variant_spec host_rescaled (hub []) ∧
  node_id <$> created (events_since (hub []) (run host_rescaled onDiscover (hub [])).2)
    = [THERMOSTAT_F; THERMOSTAT_C].
Proof.
  split; [| split].
  - intros [Hreads _]. vm_compute in Hreads. discriminate Hreads.
  - intros [Hreads _]. vm_compute in Hreads. discriminate Hreads.
  - vm_compute. reflexivity.
Qed.

(** C5 fails on the code: when [authenticate()] is rejected but the listing
    call still answers, the [catch] block logs the failure and the pass goes
    on to hand both listed thermostats to [addNode]. *)
Theorem onDiscover_registers_after_failed_authenticate :
  let w' := (run host_unauthorized onDiscover (hub [])).2 in
  (run host_unauthorized onDiscover (hub [])).1 = Resolved tt ∧
  existsb (error_line_shows "onDiscover(): Authenticate failed") (trace w') = true ∧
  count (starts is_addNode) (trace w') = 2 ∧
  registered w' = [ new_ThermostatNode_F "12345" "12345" "Kitchen";
                    new_ThermostatNode_F "67890" "67890" "Bath" ] ∧
  ¬ auth_failure_spec host_unauthorized (hub []).
Proof.
  intros w'.
  split; [vm_compute; reflexivity |].
  split; [vm_compute; reflexivity |].
  split; [vm_compute; reflexivity |].
  split; [vm_compute; reflexivity |].
  intros Hspec. destruct Hspec as [_ Hnone]; [intros t; reflexivity |].
  vm_compute in Hnone. discriminate Hnone.
Qed.

(** * Further properties *)

(** ** Functions within bounds *)

Section Within.

Variables (P : op → Prop) (Q : call → Prop) (L : string → Prop).

Lemma within_settled {A : Type} (r : outcome A) : within P Q L (settled r).
Proof. destruct r; constructor. Qed.

Lemma within_perform o : P o → within P Q L (perform o).
Proof. intros Ho. constructor; [done |]. apply within_settled. Qed.

Lemma within_invoke c : Q c → within P Q L (invoke c).
Proof. intros Hc. constructor; [done |]. constructor. Qed.

Lemma within_await c (p : promise c) : Q c → within P Q L (await p).
Proof. intros Hc. constructor; [done |]. apply within_settled. Qed.

Lemma within_bind {A B : Type} (p : prog A) (f : A → prog B) :
  within P Q L p → (∀ a, within P Q L (f a)) → within P Q L (bind p f).
Proof.
  intros Hp Hf. induction Hp; simpl; try (constructor; auto; fail); auto.
Qed.

Lemma within_try_catch {R : Type} (p : prog R) (h : error → prog R) :
  within P Q L p → (∀ e, within P Q L (h e)) → within P Q L (try_catch p h).
Proof.
  intros Hp Hh. induction Hp; simpl; try (constructor; auto; fail); auto.
Qed.

Lemma within_for_of {A : Type} (l : list A) (body : A → prog unit) :
  (∀ x, x ∈ l → within P Q L (body x)) → within P Q L (for_of l body).
Proof.
  induction l as [| x l IH]; intros Hbody; simpl; [constructor |].
  apply within_bind; [apply Hbody; left |].
  intros _. apply IH. intros y Hy. apply Hbody. by right.
Qed.

(** An invariant [I] of the world that every step within the bounds keeps
    is kept by the whole function, and by the functions it leaves
    suspended. *)
Variables (E : env) (I : world → Prop) (T : task → Prop).
Hypothesis T_within : ∀ t, task_within P Q L t → T t.
Hypothesis I_op : ∀ o w, P o → I w → I (exec_op E o w).2.
Hypothesis I_started : ∀ c w, Q c → I w → I (started c w).
Hypothesis I_awaited : ∀ c t ok w, Q c → I w → I (awaited E c t ok w).
Hypothesis I_unhandled : ∀ e w, I w → I (tick (Unhandled e) w).
Hypothesis I_pending : ∀ ts w, I w → I (set_pending ts w).
Hypothesis I_hold : ∀ key w, L key → I w → I (hold key w).
Hypothesis I_release : ∀ key w, L key → I w → I (release key w).
Hypothesis I_timeout : ∀ key w, L key → I w → I (tick (LockTimedOut key) w).

Lemma pending_exec_op o w : pending (exec_op E o w).2 = pending w.
Proof. unfold exec_op. destruct (throws E o (clock w)); [done |]. by destruct o. Qed.

Lemma park_within (s : status unit) w :
  status_within P Q L s → I w → Forall T (pending w) →
  I (park s w) ∧ Forall T (pending (park s w)).
Proof.
  intros Hs HI Ht. destruct s as [[[] | e] | c pr k]; simpl.
  - done.
  - split; [by apply I_unhandled | done].
  - split; [by apply I_pending |].
    apply Forall_app. split; [done |].
    constructor; [| constructor]. by apply T_within.
Qed.

Lemma advance_within {R : Type} (p : prog R) :
  within P Q L p →
  ∀ w, I w → Forall T (pending w) →
  I (advance E p w).2 ∧ Forall T (pending (advance E p w).2) ∧
  status_within P Q L (advance E p w).1.
Proof.
  induction 1 as [R r | R e | R o k Ho Hk IH | R c k Hc Hk IH
                  | R c pr k Hc Hk IH | R body k Hbody IHbody Hk IHk
                  | R key fn k Hkey Hfn IHfn Hk IHk
                  | R key fn k Hkey Hfn IHfn Hk IHk];
    intros w HI Ht; simpl.
  - done.
  - done.
  - pose proof (I_op o w Ho HI) as HI'.
    pose proof (pending_exec_op o w) as Hp.
    destruct (exec_op E o w) as [r w']. simpl in *.
    apply IH; [done |]. by rewrite Hp.
  - apply IH; [by apply I_started | done].
  - done.
  - destruct (IHbody w HI Ht) as (HI1 & Ht1 & Hs1).
    destruct (advance E body w) as [s w1]. simpl in *.
    destruct (park_within s w1 Hs1 HI1 Ht1) as [HI2 Ht2].
    by apply IHk.
  - destruct (lock_busy E key w).
    + apply IHk; [by apply I_timeout | done].
    + destruct (IHfn (hold key w) (I_hold key w Hkey HI) Ht) as (HI1 & Ht1 & Hs1).
      destruct (advance E fn (hold key w)) as [[r | c pr k'] w1]; simpl in *.
      * apply IHk; [by apply I_release | done].
      * destruct Hs1 as [Hc Hk']. repeat split; try done.
        intros r. by constructor.
  - destruct (IHfn w HI Ht) as (HI1 & Ht1 & Hs1).
    destruct (advance E fn w) as [[r | c pr k'] w1]; simpl in *.
    + apply IHk; [by apply I_release | done].
    + destruct Hs1 as [Hc Hk']. repeat split; try done.
      intros r. by constructor.
Qed.

Lemma run_within {R : Type} (p : prog R) :
  within P Q L p →
  ∀ w, I w → Forall T (pending w) →
  I (run E p w).2 ∧ Forall T (pending (run E p w).2).
Proof.
  induction 1 as [R r | R e | R o k Ho Hk IH | R c k Hc Hk IH
                  | R c pr k Hc Hk IH | R body k Hbody _ Hk IHk
                  | R key fn k Hkey Hfn IHfn Hk IHk
                  | R key fn k Hkey Hfn IHfn Hk IHk];
    intros w HI Ht.
  - done.
  - done.
  - change (run E (Do o k) w)
      with (let '(r, w') := exec_op E o w in run E (k r) w').
    pose proof (I_op o w Ho HI) as HI'.
    pose proof (pending_exec_op o w) as Hp.
    destruct (exec_op E o w) as [r w']. simpl in *.
    apply IH; [done |]. by rewrite Hp.
  - rewrite run_Start. apply IH; [by apply I_started | done].
  - rewrite run_Await. apply IH; [by apply I_awaited | done].
  - change (run E (Fork body k) w)
      with (let '(s, w') := advance E body w in run E k (park s w')).
    destruct (advance_within body Hbody w HI Ht) as (HI1 & Ht1 & Hs1).
    destruct (advance E body w) as [s w1]. simpl in *.
    destruct (park_within s w1 Hs1 HI1 Ht1) as [HI2 Ht2].
    by apply IHk.
  - rewrite run_Locked. destruct (lock_busy E key w).
    + apply IHk; [by apply I_timeout | done].
    + destruct (IHfn (hold key w) (I_hold key w Hkey HI) Ht) as (HI1 & Ht1).
      destruct (run E fn (hold key w)) as [r w1]. simpl in *.
      apply IHk; [by apply I_release | done].
  - change (run E (Critical key fn k) w)
      with (let '(r, w') := run E fn w in run E (k r) (release key w')).
    destruct (IHfn w HI Ht) as (HI1 & Ht1).
    destruct (run E fn w) as [r w1]. simpl in *.
    apply IHk; [by apply I_release | done].
Qed.

Lemma resume_within t w :
  task_within P Q L t → I w → Forall T (pending w) →
  I (resume E t w) ∧ Forall T (pending (resume E t w)).
Proof.
  intros [Hc Hk] HI Ht. unfold resume.
  set (id := promise_id (task_promise t)).
  set (r := settle E (task_call t) id).
  destruct (advance_within (task_cont t r) (Hk r)
              (awaited E (task_call t) id (is_resolved r) w))
    as (HI1 & Ht1 & Hs1); [by apply I_awaited | done |].
  destruct (advance E (task_cont t r) _) as [s w1]. simpl in *.
  by apply park_within.
Qed.

End Within.

(** What one synchronous call changes. *)
Lemma trace_exec_op E o w : trace (exec_op E o w).2 = trace w ++ [Called o].
Proof. unfold exec_op. destruct (throws E o (clock w)); [done |]. by destruct o. Qed.

Lemma held_exec_op E o w : held (exec_op E o w).2 = held w.
Proof. unfold exec_op. destruct (throws E o (clock w)); [done |]. by destruct o. Qed.

Lemma registered_exec_op E o w : registered (exec_op E o w).2 = registered w.
Proof. unfold exec_op. destruct (throws E o (clock w)); [done |]. by destruct o. Qed.

Lemma nodes_exec_op E o w :
  nodes (exec_op E o w).2 = nodes w ∨
  ∃ address drv v, o = Node_setDriver address drv v ∧
                  nodes (exec_op E o w).2 = alter (setDriver drv v) address (nodes w).
Proof.
  unfold exec_op. destruct (throws E o (clock w)); [by left |].
  destruct o; try (by left). right. by eexists _, _, _.
Qed.

(** The events a function within bounds adds are within the bounds. *)
Lemma run_events_within P Q L E {R : Type} (p : prog R) w :
  within P Q L p →
  ∃ evs, trace (run E p w).2 = trace w ++ evs ∧ Forall (event_within P Q L) evs.
Proof.
  intros Hp.
  pose (I := λ w', ∃ evs, trace w' = trace w ++ evs ∧ Forall (event_within P Q L) evs).
  assert (∀ ev w', event_within P Q L ev → I w' → I (tick ev w')) as Htick.
  { intros ev w' Hev (evs & Htr & Hevs). exists (evs ++ [ev]). simpl.
    rewrite Htr, app_assoc. split; [done |]. apply Forall_app. by split; [| constructor]. }
  refine (proj1 (run_within P Q L E I (λ _, True) _ _ _ _ _ _ _ _ _ p Hp w _ _)).
  - done.
  - intros o w' Ho (evs & Htr & Hevs). exists (evs ++ [Called o]).
    rewrite trace_exec_op, Htr, app_assoc. split; [done |].
    apply Forall_app. by split; [| constructor].
  - intros c w' Hc. by apply Htick.
  - intros c t ok w' Hc (evs & Htr & Hevs). exists (evs ++ [Awaited c t ok]). simpl.
    rewrite Htr, app_assoc. split; [done |]. apply Forall_app. by split; [| constructor].
  - intros e w'. by apply Htick.
  - intros ts w' HI. exact HI.
  - intros key w' _ HI. exact HI.
  - intros key w' _ HI. exact HI.
  - intros key w' Hkey. by apply Htick.
  - exists []. by rewrite app_nil_r.
  - by apply Forall_true.
Qed.

Lemma within_mono (P P' : op → Prop) (Q Q' : call → Prop) (L L' : string → Prop)
    {R : Type} (p : prog R) :
  (∀ o, P o → P' o) → (∀ c, Q c → Q' c) → (∀ key, L key → L' key) →
  within P Q L p → within P' Q' L' p.
Proof. intros HP HQ HL Hp. induction Hp; constructor; auto. Qed.

(** Deriving the bounds of a function from its text. *)
Ltac within_steps :=
  repeat first
    [ apply within_bind | apply within_try_catch | apply within_for_of
    | match goal with
      | |- within _ _ _ (perform ?o) => apply (within_perform _ _ _ o)
      end
    | apply within_invoke | apply within_await
    | apply within_settled | apply within_Ret | apply within_Throw
    | apply within_Await | apply within_Fork
    | match goal with
      | |- within _ _ _ (match ?x with _ => _ end) => destruct x
      | |- within _ _ _ (if ?x then _ else _) => destruct x
      end
    | intro | exact I | reflexivity ].

Lemma ThermostatNode_F_query_within this :
  within (writes_only (node_address this)) not_addNode no_key
         (ThermostatNode_F_query this).
Proof.
  unfold ThermostatNode_F_query, logger_info, logger_error. within_steps.
Qed.

Lemma onDiscover_within : within discovery_op discovery_call no_key onDiscover.
Proof.
  unfold onDiscover, authenticateAndList, addThermostat,
    logger_info, logger_error, logger_errorStack.
  within_steps.
Qed.

Lemma query_within this : within any_op any_call no_key (query this).
Proof.
  unfold query. destruct (node_id this).
  - by apply (within_perform _ _ _ (Node_query _)).
  - constructor; [| constructor].
    eapply within_mono; [| | | apply ThermostatNode_F_query_within]; done.
  - by apply (within_perform _ _ _ (Node_query _)).
Qed.

Lemma pollSection_within longPoll :
  within any_op any_call no_key (pollSection longPoll).
Proof.
  unfold pollSection, logger_info.
  apply within_bind; [by apply (within_perform _ _ _ (logger _ _)) |]. intros _.
  apply within_bind; [by apply within_perform |]. intros ns.
  destruct longPoll; [by apply (within_perform _ _ _ (logger _ _)) |].
  apply within_bind; [by apply (within_perform _ _ _ (logger _ _)) |]. intros _.
  apply within_for_of. intros address _.
  destruct (ns !! address); [apply query_within | constructor].
Qed.

Lemma count_tick which ev w :
  count which (trace (tick ev w)) = count which (trace w) + count which [ev].
Proof. simpl. apply count_app. Qed.

(** ** Thermostat query: what it leaves alone *)

(** X1. Whatever the host does, [ThermostatNode_F.query] changes no node
    object other than the one registered under its own address, registers
    nothing and takes no lock. *)
Theorem query_changes_own_node_only (E : env) (this : node) (w : world) (b : string) :
  b ≠ node_address this →
  nodes (run E (ThermostatNode_F_query this) w).2 !! b = nodes w !! b ∧
  registered (run E (ThermostatNode_F_query this) w).2 = registered w ∧
  held (run E (ThermostatNode_F_query this) w).2 = held w.
Proof.
  intros Hb.
  pose (I := λ w', nodes w' !! b = nodes w !! b ∧ registered w' = registered w ∧
                   held w' = held w).
  refine (proj1 (run_within (writes_only (node_address this)) not_addNode no_key
                   E I (λ _, True) _ _ _ _ _ _ _ _ _ _
                   (ThermostatNode_F_query_within this) w _ _)).
  - done.
  - intros o w' Ho (Hn & Hr & Hh). unfold I.
    rewrite registered_exec_op, held_exec_op. split; [| done].
    destruct (nodes_exec_op E o w') as [-> | (a & drv & v & -> & ->)]; [done |].
    simpl in Ho. subst a. by rewrite lookup_alter_ne.
  - intros c w' _ HI. exact HI.
  - intros c t ok w' Hc (Hn & Hr & Hh). unfold I. simpl.
    split; [done |]. split; [| done]. by destruct c.
  - intros e w' HI. exact HI.
  - intros ts w' HI. exact HI.
  - intros key w' [].
  - intros key w' [].
  - intros key w' [].
  - done.
  - by apply Forall_true.
Qed.

Lemma query_changes_own_node_only_witness :
  nodes (run host (ThermostatNode_F_query kitchen_F) (hub [controller; kitchen_F])).2
    !! "controller" = Some controller.
Proof.
  destruct (query_changes_own_node_only host kitchen_F
              (hub [controller; kitchen_F]) "controller") as (Hnodes & _).
  - vm_compute. discriminate.
  - rewrite Hnodes. vm_compute. reflexivity.
Defined.

(** ** Discovery: what it never does *)

(** A function that never calls [setDriver] leaves the node objects as they
    are; one that takes no lock leaves the locks as they are. *)
Lemma run_nodes_unchanged P Q L E {R : Type} (p : prog R) w :
  within P Q L p →
  (∀ o, P o → ∀ a drv v, o ≠ Node_setDriver a drv v) →
  nodes (run E p w).2 = nodes w.
Proof.
  intros Hp HP.
  pose (I := λ w', nodes w' = nodes w).
  refine (proj1 (run_within P Q L E I (λ _, True) _ _ _ _ _ _ _ _ _ p Hp w _ _)).
  - done.
  - intros o w' Ho Hn. unfold I.
    destruct (nodes_exec_op E o w') as [-> | (a & drv & v & Heq & _)]; [done |].
    by destruct (HP o Ho a drv v).
  - intros c w' _ HI. exact HI.
  - intros c t ok w' _ HI. exact HI.
  - intros e w' HI. exact HI.
  - intros ts w' HI. exact HI.
  - intros key w' _ HI. exact HI.
  - intros key w' _ HI. exact HI.
  - intros key w' _ HI. exact HI.
  - done.
  - by apply Forall_true.
Qed.

Lemma run_held_unchanged P Q E {R : Type} (p : prog R) w :
  within P Q no_key p → held (run E p w).2 = held w.
Proof.
  intros Hp.
  pose (I := λ w', held w' = held w).
  refine (proj1 (run_within P Q no_key E I (λ _, True) _ _ _ _ _ _ _ _ _ p Hp w _ _)).
  - done.
  - intros o w' _ Hh. unfold I. by rewrite held_exec_op.
  - intros c w' _ HI. exact HI.
  - intros c t ok w' _ HI. exact HI.
  - intros e w' HI. exact HI.
  - intros ts w' HI. exact HI.
  - intros key w' [].
  - intros key w' [].
  - intros key w' [].
  - done.
  - by apply Forall_true.
Qed.

(** X2. Whatever the host does, [onDiscover] leaves every node object of
    the registry as it was and takes no lock; it never reads the registry:
    its synchronous calls are log lines and reads of custom parameters, and
    the only asynchronous calls it makes are [authenticate], [thermostats],
    [addNode] and [sleep]. *)
Theorem onDiscover_leaves_registry_alone (E : env) (w : world) :
  nodes (run E onDiscover w).2 = nodes w ∧
  held (run E onDiscover w).2 = held w ∧
  Forall (event_within discovery_op discovery_call no_key)
         (events_since w (run E onDiscover w).2).
Proof.
  split; [| split].
  - apply (run_nodes_unchanged discovery_op discovery_call no_key);
      [apply onDiscover_within |].
    intros o Ho a drv v ->. exact Ho.
  - apply (run_held_unchanged discovery_op discovery_call), onDiscover_within.
  - destruct (run_events_within discovery_op discovery_call no_key E onDiscover w
                onDiscover_within) as (evs & Htr & Hevs).
    unfold events_since. by rewrite Htr, drop_app_length.
Qed.

(** ** The event loop: the poll lock between events *)

Lemma run_logger_error E parts w :
  run E (logger_error parts) w = (Resolved tt, tick (Called (logger ERROR parts)) w).
Proof. unfold logger_error. by rewrite (run_perform E (logger ERROR _)). Qed.

Lemma locks_as_tick h n ev w :
  is_timeout ev = false → locks_as h n w → locks_as h n (tick ev w).
Proof.
  intros Hev [Hh Hn]. split; [done |].
  rewrite count_tick, Hn. unfold count. simpl. rewrite Hev. simpl. lia.
Qed.

Lemma run_lock_free E h n {R : Type} (p : prog R) w :
  within any_op any_call no_key p →
  locks_as h n w → Forall lock_free (pending w) →
  locks_as h n (run E p w).2 ∧ Forall lock_free (pending (run E p w).2).
Proof.
  intros Hp HI HT.
  refine (run_within any_op any_call no_key E (locks_as h n) lock_free
            _ _ _ _ _ _ _ _ _ p Hp w HI HT).
  - done.
  - intros o w' _ [Hh Hn]. split; [by rewrite held_exec_op |].
    rewrite trace_exec_op, count_app, Hn. unfold count. simpl. lia.
  - intros c w' _. by apply locks_as_tick.
  - intros c t ok w' _ [Hh Hn]. split; [done |]. simpl.
    rewrite count_app, Hn. unfold count. simpl. lia.
  - intros e w'. by apply locks_as_tick.
  - intros ts w' HI'. exact HI'.
  - intros key w' [].
  - intros key w' [].
  - intros key w' [].
Qed.

Lemma deliver_lock_free E n w ev :
  locks_as ∅ n w → Forall lock_free (pending w) →
  locks_as ∅ n (deliver E w ev) ∧ Forall lock_free (pending (deliver E w ev)).
Proof.
  intros HI HT. destruct ev as [longPoll | i]; simpl.
  - unfold callAsync, doPoll. rewrite !run_try_catch, run_Locked.
    assert (lock_busy E "poll" w = false) as ->.
    { unfold lock_busy. destruct HI as [-> _]. done. }
    destruct (run_lock_free E ({["poll"]} ∪ ∅) n (pollSection longPoll) (hold "poll" w))
      as [[Hh Hn] HT1].
    { apply pollSection_within. }
    { destruct HI as [Hh Hn]. split; [simpl; by rewrite Hh | done]. }
    { done. }
    destruct (run E (pollSection longPoll) (hold "poll" w)) as [r w1].
    simpl in *. rewrite run_settled.
    assert (locks_as ∅ n (release "poll" w1)) as Hfree.
    { split; [simpl; rewrite Hh; set_solver | done]. }
    destruct r as [[] | err]; cbv beta iota; [done |].
    rewrite run_logger_error. cbv beta iota. split; [| done].
    by apply locks_as_tick.
  - destruct (pending w !! i) as [t |] eqn:Ht; [| done].
    apply (resume_within any_op any_call no_key E (locks_as ∅ n) lock_free).
    + done.
    + intros o w' _ [Hh Hn]. split; [by rewrite held_exec_op |].
      rewrite trace_exec_op, count_app, Hn. unfold count. simpl. lia.
    + intros c w' _. by apply locks_as_tick.
    + intros c t' ok w' _ [Hh Hn]. split; [done |]. simpl.
      rewrite count_app, Hn. unfold count. simpl. lia.
    + intros e w'. by apply locks_as_tick.
    + intros ts w' HI'. exact HI'.
    + intros key w' [].
    + intros key w' [].
    + intros key w' [].
    + eapply Forall_lookup_1; [exact HT | exact Ht].
    + exact HI.
    + simpl. by apply Forall_delete.
Qed.

(** X3. On every schedule of poll ticks and promise settlements that starts
    with the lock free and no function suspended, the lock [poll] is free
    after each event and no acquisition ever times out: the function under
    the lock is synchronous, so no tick finds the lock taken. *)
Theorem poll_lock_always_free (E : env) (w : world) (evs : list loop_event) :
  held w = ∅ →
  pending w = [] →
  held (foldl (deliver E) w evs) = ∅ ∧
  count is_timeout (trace (foldl (deliver E) w evs)) = count is_timeout (trace w).
Proof.
  intros Hheld Hpending.
  assert (locks_as ∅ (count is_timeout (trace w)) w ∧ Forall lock_free (pending w))
    as Hinv by (rewrite Hpending; repeat split; [done | constructor]).
  clear Hheld Hpending. revert Hinv.
  generalize (count is_timeout (trace w)) as n. revert w.
  induction evs as [| ev evs IH]; intros w n [HI HT]; simpl.
  - exact HI.
  - apply IH. by apply deliver_lock_free.
Qed.

Lemma poll_lock_always_free_witness :
  held (foldl (deliver host) (hub [controller; kitchen_F])
          [Poll false; Settle 0; Poll true; Poll false; Settle 1]) = ∅.
Proof.
  destruct (poll_lock_always_free host (hub [controller; kitchen_F])
              [Poll false; Settle 0; Poll true; Poll false; Settle 1])
    as [Hfree _].
  - reflexivity.
  - reflexivity.
  - exact Hfree.
Defined.

(** ** Thermostat query: the values it writes *)

(** X4. When the session read of a Fahrenheit thermostat's [query] succeeds
    and its fetch returns a state, on a host whose synchronous calls do not
    throw, [query] does not start [authenticate()] and calls [setDriver]
    four times, in this order: [ST] with the converted temperature,
    [CLISPH] with the converted set point, [CLIMD] with the operating mode
    as it came, and [CLIHCS] with the constant [1], whatever the [Heating]
    flag of the state says. Each of these drivers that the registered node
    has ends up with that value. *)
Theorem query_writes_drivers (E : env) (this : node) (w : world) (info : statInfo) :
  quiet E →
  is_resolved (settle E (storage_getItem "sessionId") (clock w)) = true →
  settle E (nuheat_thermostat (node_address this)) (2 + clock w)
    = Resolved (Some info) →
  ∃ w',
    run E (ThermostatNode_F_query this) w = (Resolved tt, w') ∧
    count (starts is_authenticate) (events_since w w') = 0 ∧
    List.filter sets_driver (events_since w w') =
      [ Called (Node_setDriver (node_address this) "ST" (CtoF E (Temperature info)));
        Called (Node_setDriver (node_address this) "CLISPH" (CtoF E (SetPointTemp info)));
        Called (Node_setDriver (node_address this) "CLIMD" (OperatingMode info));
        Called (Node_setDriver (node_address this) "CLIHCS" (VNum 1)) ] ∧
    (is_Some (driver_value w (node_address this) "ST") →
     driver_value w' (node_address this) "ST" = Some (CtoF E (Temperature info))) ∧
    (is_Some (driver_value w (node_address this) "CLISPH") →
     driver_value w' (node_address this) "CLISPH" = Some (CtoF E (SetPointTemp info))) ∧
    (is_Some (driver_value w (node_address this) "CLIMD") →
     driver_value w' (node_address this) "CLIMD" = Some (OperatingMode info)) ∧
    (is_Some (driver_value w (node_address this) "CLIHCS") →
     driver_value w' (node_address this) "CLIHCS" = Some (VNum 1)).
Proof.
  intros HE Hsession Hfetch.
  unfold ThermostatNode_F_query, logger_info, logger_error, perform, invoke, await.
  simpl. rewrite run_Start, run_Await. simpl.
  destruct (settle E (storage_getItem "sessionId") (clock w)) as [sid | e];
    [| discriminate Hsession].
  simpl. rewrite run_Start, run_Await. simpl. simpl in Hfetch. rewrite Hfetch.
  run_quiet HE. eexists. split; [reflexivity |].
  unfold events_since. cbn [trace op_effect set_nodes tick started awaited].
  rewrite <- !app_assoc, drop_app_length.
  split; [reflexivity |]. split; [reflexivity |].
  unfold driver_value. cbn [nodes op_effect set_nodes tick started awaited].
  rewrite !lookup_alter_eq.
  destruct (nodes w !! node_address this) as [n |]; simpl;
    [| by repeat split; intros [? ?]].
  repeat split; intros [v Hv]; rewrite !lookup_alter;
    repeat (case_decide; try discriminate);
    match type of Hv with
    | _ <$> ?d = Some _ => destruct d; simpl in *; [done | discriminate Hv]
    end.
Qed.

Lemma query_writes_drivers_witness :
  ∃ w',
    run host (ThermostatNode_F_query kitchen_F) (hub [kitchen_F]) = (Resolved tt, w') ∧
    driver_value w' "12345" "ST" = Some (Fahrenheit_of (VNum 21)) ∧
    driver_value w' "12345" "CLIHCS" = Some (VNum 1).
Proof.
  destruct (query_writes_drivers host kitchen_F (hub [kitchen_F])
              (StatInfo (VNum 21) (VNum 22) (VNum 1) (VBool true)))
    as (w' & Hrun & _ & _ & HST & _ & _ & HCLIHCS).
  - intros o t. reflexivity.
  - reflexivity.
  - reflexivity.
  - exists w'. split; [exact Hrun |]. split.
    + apply HST. exists (VStr "0"). vm_compute. reflexivity.
    + apply HCLIHCS. exists (VStr "0"). vm_compute. reflexivity.
Defined.

(** ** Polling: what a tick does *)

(** A long poll, whatever the host does. *)
Lemma run_doPoll_long (E : env) (w : world) :
  (run E (doPoll true) w).1 = Resolved tt ∧
  nodes (run E (doPoll true) w).2 = nodes w ∧
  pending (run E (doPoll true) w).2 = pending w ∧
  registered (run E (doPoll true) w).2 = registered w ∧
  params (run E (doPoll true) w).2 = params w ∧
  Forall long_poll_event (events_since w (run E (doPoll true) w).2).
Proof.
  unfold doPoll. rewrite run_try_catch, run_Locked.
  destruct (lock_busy E "poll" w).
  - rewrite run_settled. cbv beta iota. rewrite run_logger_error.
    unfold events_since. cbn. rewrite <- !app_assoc, drop_app_length.
    repeat split; try done. by repeat constructor.
  - unfold pollSection. rewrite run_bind, run_logger_info. cbv beta iota.
    rewrite run_bind, run_perform.
    destruct (throws E poly_getNodes _) as [err |]; cbv beta iota.
    + rewrite run_settled. cbv beta iota. rewrite run_logger_error.
      unfold events_since. cbn. rewrite <- !app_assoc, drop_app_length.
      repeat split; try done. by repeat constructor.
    + rewrite run_logger_info. cbv beta iota. rewrite run_settled.
      unfold events_since. cbn. rewrite <- !app_assoc, drop_app_length.
      repeat split; try done. by repeat constructor.
Qed.

(** X5. Whatever the host does, a long poll returns normally and does
    nothing but log and read the registry (or log a lock timeout): it makes
    no asynchronous call, leaves no function suspended and changes no node,
    registration or parameter. *)
Theorem long_poll_does_nothing (E : env) (w : world) :
  (run E (doPoll true) w).1 = Resolved tt ∧
  nodes (run E (doPoll true) w).2 = nodes w ∧
  pending (run E (doPoll true) w).2 = pending w ∧
  registered (run E (doPoll true) w).2 = registered w ∧
  params (run E (doPoll true) w).2 = params w ∧
  Forall long_poll_event (events_since w (run E (doPoll true) w).2).
Proof. exact (run_doPoll_long E w). Qed.

(** ** callAsync *)

(** X6. [callAsync] never lets a rejection out: whatever the function it
    is given does, it ends normally; when that function rejects, the error
    is logged once, with its message and its stack. *)
Theorem callAsync_never_rejects (E : env) (body : prog unit) (w : world) :
  (run E (callAsync body) w).1 = Resolved tt ∧
  match run E body w with
  | (Resolved _, w1) => (run E (callAsync body) w).2 = w1
  | (Rejected err, w1) =>
      (run E (callAsync body) w).2 =
        tick (Called (logger ERROR [PStr "Error with async function: %s %s";
                                    PStr (err_message err); PStr (err_stack err)]))
             w1
  end.
Proof.
  unfold callAsync. rewrite run_try_catch.
  destruct (run E body w) as [[[] | err] w1]; [done |].
  by rewrite run_logger_error.
Qed.

(** One node of a short poll: a Fahrenheit thermostat gets its [query]
    started and left suspended at the session read, any other node gets the
    base class's [query]. *)
Lemma run_query E this w :
  quiet E →
  ∃ w' evs,
    run E (query this) w = (Resolved tt, w') ∧
    trace w' = trace w ++ evs ∧
    count calls_base_query evs = (if is_Fahrenheit_node this then 0 else 1) ∧
    in_flight w' = in_flight w ++
      (if is_Fahrenheit_node this then [storage_getItem "sessionId"] else []) ∧
    nodes w' = nodes w ∧ held w' = held w.
Proof.
  intros HE. unfold query, is_Fahrenheit_node.
  destruct (node_id this).
  - unfold perform. rewrite (run_Do_quiet _ _ _ _ HE). simpl. rewrite run_Ret.
    eexists _, _. split; [reflexivity |]. cbn.
    repeat split; try reflexivity. by rewrite app_nil_r.
  - eexists _, _. split; [reflexivity |]. cbn.
    repeat split; try reflexivity. unfold in_flight. cbn. by rewrite fmap_app.
  - unfold perform. rewrite (run_Do_quiet _ _ _ _ HE). simpl. rewrite run_Ret.
    eexists _, _. split; [reflexivity |]. cbn.
    repeat split; try reflexivity. by rewrite app_nil_r.
Qed.

Lemma run_query_loop E (ns : gmap string node) (l : list (string * node)) w :
  quiet E →
  Forall (λ kn, ns !! kn.1 = Some kn.2) l →
  ∃ w' evs,
    run E (for_of l.*1 (λ address,
             match ns !! address with
             | Some this => query this
             | None => Ret tt
             end)) w = (Resolved tt, w') ∧
    trace w' = trace w ++ evs ∧
    count calls_base_query evs
      = length (List.filter (λ kn, negb (is_Fahrenheit_node kn.2)) l) ∧
    in_flight w' = in_flight w ++
      replicate (length (List.filter (λ kn, is_Fahrenheit_node kn.2) l))
                (storage_getItem "sessionId") ∧
    nodes w' = nodes w ∧ held w' = held w.
Proof.
  intros HE Hl. revert w.
  induction Hl as [| [k n] l Hkn Hl IH]; intros w.
  - exists w, []. cbn. rewrite !app_nil_r. by rewrite run_Ret.
  - cbn [fmap list_fmap for_of fst]. simpl in Hkn. rewrite run_bind, Hkn.
    destruct (run_query E n w HE) as (w1 & evs1 & -> & Ht1 & Hc1 & Hf1 & Hn1 & Hh1).
    destruct (IH w1) as (w2 & evs2 & -> & Ht2 & Hc2 & Hf2 & Hn2 & Hh2).
    exists w2, (evs1 ++ evs2). split; [reflexivity |].
    split; [by rewrite Ht2, Ht1, app_assoc |].
    rewrite count_app, Hc1, Hc2, Hf2, Hf1, Hn2, Hn1, Hh2, Hh1.
    cbn [List.filter snd]. destruct (is_Fahrenheit_node n); cbn.
    + repeat split; try done. by rewrite <- app_assoc.
    + repeat split; try done. by rewrite app_nil_r.
Qed.

(** A short poll on a quiet host with the lock not busy. *)
Lemma run_doPoll_short (E : env) (w : world) :
  quiet E →
  lock_busy E "poll" w = false →
  (run E (doPoll false) w).1 = Resolved tt ∧
  in_flight (run E (doPoll false) w).2 =
    in_flight w ++
    replicate (length (List.filter (λ kn, is_Fahrenheit_node kn.2)
                                   (map_to_list (nodes w))))
              (storage_getItem "sessionId") ∧
  count calls_base_query (events_since w (run E (doPoll false) w).2) =
    length (List.filter (λ kn, negb (is_Fahrenheit_node kn.2))
                        (map_to_list (nodes w))) ∧
  nodes (run E (doPoll false) w).2 = nodes w.
Proof.
  intros HE Hfree. unfold doPoll. rewrite run_try_catch, run_Locked, Hfree.
  unfold pollSection. rewrite run_bind, run_logger_info. cbv beta iota.
  rewrite run_bind, run_perform, throws_quiet by done. cbv beta iota.
  rewrite run_bind, run_logger_info. cbv beta iota.
  set (w0 := tick _ (op_effect _ _)).
  destruct (run_query_loop E (nodes w) (map_to_list (nodes w)) w0 HE)
    as (w1 & evs & Hrun & Ht & Hc & Hf & Hn & Hh).
  { apply Forall_forall. intros [k n] Hin. by apply elem_of_map_to_list. }
  unfold Object_keys. cbn [op_return].
  change (nodes (tick (Called (logger INFO [PStr "%s"; PStr "Short poll"]))
                      (hold "poll" w))) with (nodes w).
  match goal with
  | |- context [run E ?p w0] =>
      replace (run E p w0) with (Resolved tt, w1) by (symmetry; exact Hrun)
  end.
  cbv beta iota.
  rewrite run_settled. cbv beta iota. cbn [fst snd].
  split; [done |]. split; [| split].
  - unfold in_flight in *. cbn. exact Hf.
  - unfold events_since. cbn. rewrite Ht. subst w0. cbn.
    rewrite <- !app_assoc, drop_app_length, !count_app, Hc.
    unfold count. simpl. lia.
  - cbn. by rewrite Hn.
Qed.



(** ** Discovery: without a listing *)

(** X8. When the listing call returns [null], [onDiscover] logs
    [No thermostats found.] as its last act and returns normally; it reads
    no scale and hands no node to [addNode], however [authenticate()]
    settles. *)
Theorem onDiscover_no_listing (E : env) (w : world) :
  settle E nuheat_thermostats (2 + clock w) = Resolved None →
  (run E onDiscover w).1 = Resolved tt ∧
  count (starts is_addNode) (events_since w (run E onDiscover w).2) = 0 ∧
  count reads_scale (events_since w (run E onDiscover w).2) = 0 ∧
  last (trace (run E onDiscover w).2)
    = Some (Called (logger ERROR [PStr "No thermostats found."])).
Proof.
  intros Hlist. simpl in Hlist.
  unfold onDiscover, authenticateAndList, logger_info, logger_error, perform, invoke.
  run_steps. rewrite Hlist. run_steps.
  destruct (settle E nuheat_authenticate (S (clock w))) as [[] | err];
    run_steps; unfold events_since; cbn; rewrite <- ?app_assoc, ?drop_app_length;
    (repeat split; try reflexivity); by rewrite !app_assoc, last_snoc.
Qed.

Lemma onDiscover_no_listing_witness :
  last (trace (run host_expired_listing onDiscover (hub [])).2)
    = Some (Called (logger ERROR [PStr "No thermostats found."])).
Proof.
  destruct (onDiscover_no_listing host_expired_listing (hub []))
    as (_ & _ & _ & Hlast).
  - reflexivity.
  - exact Hlast.
Defined.

(** X9. When the listing call is rejected, [onDiscover] reports it as
    [onDiscover(): Authenticate failed], whatever [authenticate()] itself
    does: the promise of [authenticate()] is never awaited. [tstats] keeps
    its initial empty object, so no node is handed to [addNode] and the
    function returns normally. *)
Theorem onDiscover_listing_rejected (E : env) (w : world) (err : error) :
  settle E nuheat_thermostats (2 + clock w) = Rejected err →
  (run E onDiscover w).1 = Resolved tt ∧
  existsb (error_line_shows "onDiscover(): Authenticate failed")
          (events_since w (run E onDiscover w).2) = true ∧
  count (awaits is_authenticate) (events_since w (run E onDiscover w).2) = 0 ∧
  count (starts is_addNode) (events_since w (run E onDiscover w).2) = 0 ∧
  last (trace (run E onDiscover w).2)
    = Some (Called (logger INFO [PStr "Thermostat Data: ";
                                 PJson (Some (Listing None))])).
Proof.
  intros Hlist. simpl in Hlist.
  unfold onDiscover, authenticateAndList, logger_info, logger_error, perform, invoke.
  run_steps. rewrite Hlist.
  run_steps. unfold events_since. cbn. rewrite <- ?app_assoc, ?drop_app_length.
  repeat split; try reflexivity. by rewrite !app_assoc, last_snoc.
Qed.

Lemma onDiscover_listing_rejected_witness :
  count (starts is_addNode)
        (events_since (hub []) (run host_listing_down onDiscover (hub [])).2) = 0.
Proof.
  destruct (onDiscover_listing_rejected host_listing_down (hub []) unauthorized)
    as (_ & _ & _ & Hnone & _).
  - reflexivity.
  - exact Hnone.
Defined.

(** ** Discovery: the nodes it creates *)

Section DiscoveryNodes.

Variable E : env.
Hypothesis HE : quiet E.
Hypothesis Hsleep : ∀ t, settle E (nuheat_sleep 1000) t = Resolved tt.
Hypothesis Hsame : ∀ t, reconfigure E t = None.

Lemma pass_nodes_refl w : pass_nodes w w [].
Proof. exists []. by rewrite app_nil_r. Qed.

Lemma pass_nodes_trans w1 w2 w3 ns1 ns2 :
  pass_nodes w1 w2 ns1 → pass_nodes w2 w3 ns2 → pass_nodes w1 w3 (ns1 ++ ns2).
Proof.
  intros (evs1 & Ht1 & Hc1 & Hs1 & Hp1) (evs2 & Ht2 & Hc2 & Hs2 & Hp2).
  exists (evs1 ++ evs2). unfold created in *.
  rewrite omap_app, count_app, length_app, Hc1, Hc2, Hs1, Hs2.
  split; [by rewrite Ht2, Ht1, app_assoc |]. split; [done |].
  split; [lia | congruence].
Qed.

Lemma pass_nodes_logger w lvl parts :
  pass_nodes w (tick (Called (logger lvl parts)) w) [].
Proof. by exists [Called (logger lvl parts)]. Qed.

Lemma run_addThermostat_node w stat :
  ∃ w', run E (addThermostat stat) w = (Resolved tt, w') ∧
        pass_nodes w w' [node_of (getCustomParam "Scale" w) stat].
Proof.
  unfold addThermostat, node_of, new_Thermostat.
  unfold logger_info, logger_errorStack, perform, invoke, await.
  simpl. rewrite (run_Do_quiet _ _ _ _ HE). simpl.
  destruct (is_Fahrenheit (getCustomParam "Scale" w)); simpl;
    rewrite run_Start, run_Await; simpl;
    match goal with |- context [settle E (poly_addNode ?n) ?t] =>
      destruct (settle E (poly_addNode n) t) as [result | err] end;
    run_quiet HE; rewrite Hsleep; run_quiet HE;
    (eexists; split; [reflexivity |]);
    (eexists; split; [cbn; rewrite <- ?app_assoc; reflexivity |]);
    (split; [reflexivity |]); (split; [reflexivity |]);
    cbn; by rewrite !Hsame.
Qed.

Lemma run_inner_loop_nodes stats w :
  ∃ w', run E (for_of stats addThermostat) w = (Resolved tt, w') ∧
        pass_nodes w w' (node_of (getCustomParam "Scale" w) <$> stats).
Proof.
  revert w. induction stats as [| stat stats IH]; intros w.
  - exists w. split; [reflexivity | apply pass_nodes_refl].
  - cbn [for_of]. rewrite run_bind.
    destruct (run_addThermostat_node w stat) as (w1 & -> & H1).
    destruct (IH w1) as (w2 & -> & H2).
    exists w2. split; [done |].
    assert (getCustomParam "Scale" w1 = getCustomParam "Scale" w) as Hscale.
    { destruct H1 as (_ & _ & _ & _ & Hp). unfold getCustomParam. by rewrite Hp. }
    rewrite Hscale in H2.
    by apply (pass_nodes_trans w w1 w2 [_]).
Qed.

Lemma run_outer_loop_nodes groups w :
  ∃ w',
    run E (for_of groups (λ group,
             logger_info [PStr "Group Name: "; PStr (groupName group)];;
             for_of (Thermostats group) addThermostat)) w = (Resolved tt, w') ∧
    pass_nodes w w' (node_of (getCustomParam "Scale" w) <$> stats_of groups).
Proof.
  revert w. induction groups as [| g groups IH]; intros w.
  - exists w. split; [reflexivity | apply pass_nodes_refl].
  - cbn [for_of]. rewrite !run_bind, run_logger_info.
    set (w0 := tick _ w).
    destruct (run_inner_loop_nodes (Thermostats g) w0) as (w1 & -> & H1).
    destruct (IH w1) as (w2 & -> & H2).
    exists w2. split; [done |].
    assert (getCustomParam "Scale" w1 = getCustomParam "Scale" w) as Hscale.
    { destruct H1 as (_ & _ & _ & _ & Hp). unfold getCustomParam. by rewrite Hp. }
    rewrite Hscale in H2.
    unfold stats_of. cbn [fmap list_fmap concat]. rewrite fmap_app.
    change (getCustomParam "Scale" w0) with (getCustomParam "Scale" w) in H1.
    apply (pass_nodes_trans w w0 w2 []); [apply pass_nodes_logger |].
    by apply (pass_nodes_trans w0 w1 w2).
Qed.

Lemma run_authenticateAndList_nodes w tstats :
  (∀ t, settle E nuheat_thermostats t = Resolved tstats) →
  ∃ w', run E authenticateAndList w = (Resolved tstats, w') ∧ pass_nodes w w' [].
Proof.
  intros Hlist. unfold authenticateAndList, logger_error, perform, invoke.
  simpl. rewrite !run_Start, run_Await, Hlist, run_Await. simpl.
  destruct (settle E nuheat_authenticate (clock w)) as [[] | err];
    run_quiet HE; (eexists; split; [reflexivity |]);
    (eexists; split; [cbn; rewrite <- ?app_assoc; reflexivity |]);
    (split; [reflexivity |]); (split; [reflexivity |]);
    cbn; by rewrite !Hsame.
Qed.

(** X10. On a host whose synchronous calls do not throw, whose pacing delay
    ends and which sends no configuration during the pass: [onDiscover]
    creates one node for every thermostat of the listing, in the listing's
    order and without looking whether its address is already registered;
    the node's address and primary are the text of the serial number, its
    name is the room, its class is that of the configured scale; and the
    pacing delay is awaited once after each of them. *)
Theorem onDiscover_creates_listed_nodes (w : world) (groups : list group) :
  (∀ t, settle E nuheat_thermostats t = Resolved (Some (Listing (Some groups)))) →
  created (events_since w (run E onDiscover w).2)
    = node_of (getCustomParam "Scale" w) <$> stats_of groups ∧
  count (awaits is_sleep) (events_since w (run E onDiscover w).2)
    = length (stats_of groups).
Proof.
  intros Hlist. unfold onDiscover.
  rewrite run_bind, run_logger_info.
  set (w0 := tick _ w). rewrite run_bind.
  destruct (run_authenticateAndList_nodes w0 _ Hlist) as (w1 & -> & H1).
  rewrite run_bind, run_logger_info. cbn [Groups].
  set (w2 := tick _ w1).
  destruct (run_outer_loop_nodes groups w2) as (w3 & -> & H3).
  assert (pass_nodes w w3 (node_of (getCustomParam "Scale" w) <$> stats_of groups))
    as (evs & Ht & Hc & Hs & _).
  { assert (getCustomParam "Scale" w2 = getCustomParam "Scale" w) as Hscale.
    { destruct H1 as (_ & _ & _ & _ & Hp). unfold getCustomParam.
      change (params w2) with (params w1). by rewrite Hp. }
    rewrite Hscale in H3.
    apply (pass_nodes_trans w w0 w3 []); [apply pass_nodes_logger |].
    apply (pass_nodes_trans w0 w1 w3 []); [exact H1 |].
    apply (pass_nodes_trans w1 w2 w3 []); [apply pass_nodes_logger | exact H3]. }
  cbn [snd]. unfold events_since. rewrite Ht, drop_app_length.
  by rewrite Hc, Hs, length_fmap.
Qed.

End DiscoveryNodes.

Lemma onDiscover_creates_listed_nodes_witness :
  created (events_since (hub [kitchen_F]) (run host onDiscover (hub [kitchen_F])).2)
    = [ new_ThermostatNode_F "12345" "12345" "Kitchen";
        new_ThermostatNode_F "67890" "67890" "Bath" ].
Proof.
  destruct (onDiscover_creates_listed_nodes host) with
    (w := hub [kitchen_F]) (groups := [Group "Home" [kitchen; bath]])
    as (Hcreated & _).
  - intros o t. reflexivity.
  - intros t. reflexivity.
  - intros t. reflexivity.
  - intros t. reflexivity.
  - rewrite Hcreated. vm_compute. reflexivity.
Defined.

(** ** The lifecycle handlers *)

Arguments perform_script : simpl never.

Lemma perform_script_then {A B : Type} E (s : script A) (f : A → script B) v :
  perform_script E (then_ s f) v =
    match perform_script E s v with
    | (Resolved a, v') => perform_script E (f a) v'
    | (Rejected e, v') => (Rejected e, v')
    end.
Proof.
  revert f v.
  induction s as [A a | A e | A h k IH | A p k IH | A body _ k IH];
    intros f v; cbn [then_]; unfold perform_script; fold @perform_script;
    try reflexivity.
  - destruct (exec_call E h v) as [r v']. apply IH.
  - destruct (run (inner E) p (base v)) as [r w']. apply IH.
  - destruct (start E body v) as [st v']. apply IH.
Qed.

Lemma perform_script_try {R : Type} E (s : script R) (h : error → script R) v :
  perform_script E (try_script s h) v =
    match perform_script E s v with
    | (Resolved r, v') => (Resolved r, v')
    | (Rejected e, v') => perform_script E (h e) v'
    end.
Proof.
  revert h v.
  induction s as [R a | R e | R c k IH | R p k IH | R body _ k IH];
    intros h v; cbn [try_script]; unfold perform_script; fold @perform_script;
    try reflexivity.
  - destruct (exec_call E c v) as [r v']. apply IH.
  - destruct (run (inner E) p (base v)) as [r w']. apply IH.
  - destruct (start E body v) as [st v']. apply IH.
Qed.

Lemma perform_script_finished {A : Type} E (r : outcome A) v :
  perform_script E (finished r) v = (r, v).
Proof. by destruct r. Qed.

Lemma perform_script_code E p v :
  perform_script E (code p) v =
    ((run (inner E) p (base v)).1, set_base (run (inner E) p (base v)).2 v).
Proof.
  unfold code, perform_script. destruct (run (inner E) p (base v)) as [r w'].
  apply (perform_script_finished E r).
Qed.

Lemma perform_script_ask E h v :
  perform_script E (ask h) v = exec_call E h v.
Proof.
  unfold ask, perform_script. destruct (exec_call E h v) as [r v'].
  apply (perform_script_finished E r).
Qed.

Lemma perform_script_log E parts v :
  perform_script E (code (logger_info parts)) v =
    (Resolved tt, set_base (tick (Called (logger INFO parts)) (base v)) v).
Proof. by rewrite perform_script_code, run_logger_info. Qed.

Lemma exec_call_calm E h v :
  calm E →
  exec_call E h v = (Resolved (lifecycle_return E h), requested h v).
Proof.
  intros HE. unfold exec_call.
  replace (fails E h (length (requests v))) with (@None error); [done |].
  destruct h; cbn; by rewrite ?HE.
Qed.

Lemma exec_call_ok E h v :
  fails E h (length (requests v)) = None →
  exec_call E h v = (Resolved (lifecycle_return E h), requested h v).
Proof. intros H. unfold exec_call. by rewrite H. Qed.

Lemma exec_call_fail E h v e :
  fails E h (length (requests v)) = Some e →
  exec_call E h v = (Rejected e, requested h v).
Proof. intros H. unfold exec_call. by rewrite H. Qed.

Lemma run_doPoll_returns E longPoll w : (run E (doPoll longPoll) w).1 = Resolved tt.
Proof.
  unfold doPoll. rewrite run_try_catch.
  destruct (run E (Locked _ _ _) w) as [[[] | err] w1]; [done |].
  by rewrite run_logger_error.
Qed.

(** The [try] statement of [autoCreateController]. *)
Lemma run_addController E w :
  let accepted := is_resolved (settle E (poly_addNode controller) (clock w)) in
  let r := run E (try_catch
                    (_ ← (p ← invoke (poly_addNode
                                        (new_ControllerNode "controller" "controller"
                                                            "NuHeat"));
                          await p);
                     Ret tt)
                    (λ err, logger_error [PStr "Error creating controller node"])) w in
  r.1 = Resolved tt ∧
  registered r.2 = registered w ++ (if accepted then [controller] else []) ∧
  events_since w r.2
    = [Started (poly_addNode controller) (clock w);
       Awaited (poly_addNode controller) (clock w) accepted]
      ++ (if accepted then []
          else [Called (logger ERROR [PStr "Error creating controller node"])]).
Proof.
  cbv zeta. rewrite run_try_catch, run_bind, run_bind. unfold invoke, await.
  rewrite run_Start, run_Ret. cbv beta iota. rewrite run_Await.
  change controller with (new_ControllerNode "controller" "controller" "NuHeat").
  cbn [promise_id].
  destruct (settle E (poly_addNode _) (clock w)) as [res | err];
    cbn [is_resolved settled]; rewrite ?run_Ret, ?run_Throw; cbv beta iota.
  - unfold events_since. cbn.
    by rewrite <- !app_assoc, drop_app_length.
  - rewrite run_logger_error. unfold events_since. cbn.
    by rewrite <- !app_assoc, drop_app_length, app_nil_r.
Qed.

(** X11. [autoCreateController] asks for the notice 'Controller node
    initialized' whether the hub accepted the controller node or not: a
    rejected [addNode] is logged and nothing more. The function rejects
    only when posting the notice throws, and under [callAsync] not even
    then. *)
Theorem autoCreateController_always_posts_notice (E : lifecycle_env) (v : server) :
  let accepted :=
    is_resolved (settle (inner E) (poly_addNode controller) (clock (base v))) in
  let r := perform_script E autoCreateController v in
  r.1 = match fails E controller_notice (length (requests v)) with
        | Some e => Rejected e
        | None => Resolved tt
        end ∧
  requests r.2 = requests v ++ [controller_notice] ∧
  registered (base r.2)
    = registered (base v) ++ (if accepted then [controller] else []) ∧
  events_since (base v) (base r.2)
    = [Started (poly_addNode controller) (clock (base v));
       Awaited (poly_addNode controller) (clock (base v)) accepted]
      ++ (if accepted then []
          else [Called (logger ERROR [PStr "Error creating controller node"])]) ∧
  (perform_script E (callAsync_script autoCreateController) v).1 = Resolved tt.
Proof.
  cbv zeta. unfold callAsync_script. rewrite perform_script_try.
  unfold autoCreateController.
  rewrite perform_script_then, perform_script_code.
  destruct (run_addController (inner E) (base v)) as (Hr & Hreg & Hev).
  destruct (run (inner E) _ (base v)) as [r w1]. cbn [fst snd] in *. subst r.
  fold controller_notice. rewrite (perform_script_ask E controller_notice).
  unfold exec_call. cbn [set_base requests].
  destruct (fails E controller_notice _) as [e |]; cbn [fst snd requested base requests].
  - rewrite perform_script_code, run_logger_error. by cbn.
  - done.
Qed.

Lemma perform_script_Finish {R : Type} E (r : R) v :
  perform_script E (Finish r) v = (Resolved r, v).
Proof. done. Qed.

Lemma perform_script_Spawn {R : Type} E body (k : script R) v :
  perform_script E (Spawn body k) v =
    perform_script E k (shelve (start E body v).1 (start E body v).2).
Proof. unfold perform_script. by destruct (start E body v). Qed.

(** Called, [callAsync(autoCreateController())] runs up to the [await] of
    [poly.addNode]. *)
Lemma start_autoCreateController E v :
  ∃ k, start E (callAsync_script autoCreateController) v =
         (Waiting (poly_addNode controller) (Promise (clock (base v))) k,
          set_base (started (poly_addNode controller) (base v)) v).
Proof. eexists. reflexivity. Qed.

Lemma Object_keys_none {V} (o : gmap string V) :
  Nat.eqb (length (Object_keys o)) 0 = bool_decide (o = ∅).
Proof.
  unfold Object_keys. rewrite length_fmap.
  destruct (decide (o = ∅)) as [-> | Hne].
  - by rewrite map_to_list_empty.
  - rewrite bool_decide_eq_false_2 by done.
    apply Nat.eqb_neq. intros Hlen. apply Hne, map_to_list_empty_iff.
    by apply nil_length_inv.
Qed.

(** X12. A configuration that is not the first one after a restart is only
    counted in the log: the handler makes no other call, so parameters that
    change later are not reconciled and no controller is created. *)
Theorem onConfig_later_config_only_logs (E : lifecycle_env) (v : server) (c : config) :
  config_isInitialConfig c = false →
  perform_script E (onConfig c) v =
    (Resolved tt,
     set_base (tick (Called (logger INFO
                               [PStr "Config received has %d nodes";
                                PVal (count_value (length (Object_keys (config_nodes c))))]))
                    (base v)) v).
Proof.
  intros Hlater. unfold onConfig. cbv zeta.
  by rewrite perform_script_then, perform_script_log, Hlater.
Qed.

(** The part of the handler of [config] that follows the profile or the
    configuration document. *)
Lemma perform_onConfig_rest E (c : config) v :
  calm E →
  let r := perform_script E
    (match initializeCustomParams (config_customParams c) with
     | Some saved => ask (poly_saveCustomParams saved)
     | None => Finish tt
     end;;
     (if Nat.eqb (length (Object_keys (config_nodes c))) 0
      then
        try_script
          (code (logger_info [PStr "Auto-creating controller"]);;
           Spawn (callAsync_script autoCreateController) (Finish tt))
          (λ err, code (logger_error [PStr "Error while auto-creating controller node:";
                                      PErr err]))
      else Finish tt);;
     if config_newParamsDetected c
     then code (logger_info [PStr "New parameters detected"])
     else Finish tt)%script v in
  r.1 = Resolved tt ∧
  requests r.2 = requests v ++
    match initializeCustomParams (config_customParams c) with
    | Some saved => [poly_saveCustomParams saved]
    | None => []
    end ∧
  job_call <$> waiting r.2 =
    (job_call <$> waiting v) ++
    (if bool_decide (config_nodes c = ∅) then [poly_addNode controller] else []) ∧
  count is_start (trace (base r.2)) =
    count is_start (trace (base v)) + (if bool_decide (config_nodes c = ∅) then 1 else 0) ∧
  registered (base r.2) = registered (base v).
Proof.
  intros HE. cbv zeta. rewrite perform_script_then.
  set (v1 := perform_script E match initializeCustomParams _ with
                              | Some saved => ask (poly_saveCustomParams saved)
                              | None => Finish tt
                              end v).
  assert (Hv1 : v1 = (Resolved tt,
                      Server (base v)
                             (requests v ++
                                match initializeCustomParams (config_customParams c) with
                                | Some saved => [poly_saveCustomParams saved]
                                | None => []
                                end)
                             (waiting v))).
  { subst v1. destruct (initializeCustomParams _) as [saved |].
    - by rewrite (perform_script_ask E (poly_saveCustomParams saved)), exec_call_calm.
    - rewrite app_nil_r. by destruct v. }
  rewrite Hv1. clear v1 Hv1. cbv beta iota.
  rewrite perform_script_then, Object_keys_none.
  destruct (bool_decide (config_nodes c = ∅)).
  - rewrite perform_script_try, perform_script_then, perform_script_log.
    cbv beta iota. rewrite perform_script_Spawn.
    match goal with
    | |- context [start E _ ?s] =>
        destruct (start_autoCreateController E s) as [k ->]
    end.
    cbn [fst snd shelve]. rewrite perform_script_Finish. cbv beta iota.
    destruct (config_newParamsDetected c).
    + rewrite perform_script_log. cbn. rewrite fmap_app.
      unfold count. rewrite !List.filter_app. cbn. rewrite !length_app. cbn.
      repeat split; try done; lia.
    + rewrite perform_script_Finish. cbn. rewrite fmap_app.
      unfold count. rewrite !List.filter_app. cbn. rewrite !length_app. cbn.
      repeat split; try done; lia.
  - rewrite perform_script_Finish. cbv beta iota.
    destruct (config_newParamsDetected c).
    + rewrite perform_script_log. cbn. rewrite app_nil_r.
      unfold count. rewrite !List.filter_app. cbn. rewrite !length_app. cbn.
      repeat split; try done; lia.
    + rewrite perform_script_Finish. cbn. rewrite app_nil_r.
      repeat split; try done; lia.
Qed.

Lemma onConfig_later_config_only_logs_witness :
  requests (perform_script premises (onConfig later_config) (server_of (hub []))).2 = [] ∧
  waiting (perform_script premises (onConfig later_config) (server_of (hub []))).2 = [].
Proof.
  rewrite (onConfig_later_config_only_logs premises (server_of (hub [])) later_config).
  - split; reflexivity.
  - reflexivity.
Defined.

(** X13. On a host whose lifecycle calls do not throw, the first
    configuration after a restart clears the notices, sends the profile (in
    the cloud) or the configuration document (on premises), saves the
    reconciled parameters when [initializeCustomParams] asks for it, and
    calls [autoCreateController] exactly when the configuration has no
    nodes; the handler returns while [poly.addNode] is still awaited, so
    the controller is not registered and its notice not asked for yet. *)
Theorem onConfig_initial_config (E : lifecycle_env) (v : server) (c : config) :
  calm E →
  config_isInitialConfig c = true →
  let fresh := bool_decide (config_nodes c = ∅) in
  let r := perform_script E (onConfig c) v in
  r.1 = Resolved tt ∧
  requests r.2 = requests v ++ startup_requests E (config_customParams c) ∧
  job_call <$> waiting r.2 =
    (job_call <$> waiting v) ++ (if fresh then [poly_addNode controller] else []) ∧
  count is_start (trace (base r.2)) =
    count is_start (trace (base v)) + (if fresh then 1 else 0) ∧
  registered (base r.2) = registered (base v).
Proof.
  intros HE Hinit. cbv zeta. unfold onConfig. cbv zeta.
  rewrite perform_script_then, perform_script_log, Hinit. cbv beta iota.
  rewrite perform_script_then, (perform_script_ask E poly_removeNoticesAll),
    exec_call_calm by done. cbv beta iota.
  rewrite perform_script_then, (perform_script_ask E poly_isCloud),
    exec_call_calm by done. cbv beta iota. cbn [lifecycle_return].
  rewrite perform_script_then. unfold startup_requests.
  destruct (in_cloud E).
  - rewrite perform_script_then, perform_script_log. cbv beta iota.
    rewrite (perform_script_ask E poly_updateProfileIfNew), exec_call_calm by done.
    cbv beta iota.
    match goal with
    | |- context [perform_script E _ ?s] =>
        destruct (perform_onConfig_rest E c s HE) as (H1 & H2 & H3 & H4 & H5)
    end.
    cbv zeta in H1, H2, H3, H4, H5.
    rewrite H1, H2, H3, H4, H5. cbn.
    unfold count. rewrite !List.filter_app. cbn. rewrite !length_app. cbn.
    rewrite <- !app_assoc. repeat split; try done; lia.
  - rewrite perform_script_then, perform_script_log. cbv beta iota.
    rewrite perform_script_then,
      (perform_script_ask E (fs_readFileSync "./configdoc.md")),
      exec_call_calm by done.
    cbv beta iota. cbn [lifecycle_return].
    rewrite perform_script_then,
      (perform_script_ask E (markdown_toHTML _)), exec_call_calm by done.
    cbv beta iota. cbn [lifecycle_return].
    rewrite (perform_script_ask E (poly_setCustomParamsDoc _)), exec_call_calm by done.
    cbv beta iota.
    match goal with
    | |- context [perform_script E _ ?s] =>
        destruct (perform_onConfig_rest E c s HE) as (H1 & H2 & H3 & H4 & H5)
    end.
    cbv zeta in H1, H2, H3, H4, H5.
    rewrite H1, H2, H3, H4, H5. cbn.
    unfold count. rewrite !List.filter_app. cbn. rewrite !length_app. cbn.
    rewrite <- !app_assoc. repeat split; try done; lia.
Qed.

Lemma onConfig_initial_config_witness :
  job_call <$> waiting (perform_script premises (onConfig first_config)
                                       (server_of (hub []))).2
    = [poly_addNode controller] ∧
  registered (base (perform_script premises (onConfig first_config)
                                   (server_of (hub []))).2) = [].
Proof.
  destruct (onConfig_initial_config premises (server_of (hub [])) first_config)
    as (_ & _ & Hjobs & _ & Hreg).
  - intros h t. reflexivity.
  - reflexivity.
  - split; [exact Hjobs | exact Hreg].
Defined.

(** X14. On premises, when reading [./configdoc.md] throws during the
    first configuration, the handler throws that error at once: the
    parameters are not reconciled and [autoCreateController] is not
    called. *)
Theorem onConfig_missing_document (E : lifecycle_env) (v : server) (c : config)
    (e : error) :
  config_isInitialConfig c = true →
  in_cloud E = false →
  failing E poly_removeNoticesAll (length (requests v)) = None →
  failing E (fs_readFileSync "./configdoc.md") (2 + length (requests v)) = Some e →
  let r := perform_script E (onConfig c) v in
  r.1 = Rejected e ∧
  requests r.2 = requests v ++ [poly_removeNoticesAll; poly_isCloud;
                                fs_readFileSync "./configdoc.md"] ∧
  waiting r.2 = waiting v ∧
  count is_start (trace (base r.2)) = count is_start (trace (base v)).
Proof.
  intros Hinit Hprem Hclear Hread. cbv zeta.
  assert (Heq : perform_script E (onConfig c) v =
    (Rejected e,
     Server (tick (Called (logger INFO [PStr "Running nodeserver on-premises"]))
               (tick (Called (logger INFO
                       [PStr "Config received has %d nodes";
                        PVal (count_value (length (Object_keys (config_nodes c))))]))
                     (base v)))
            (requests v ++ [poly_removeNoticesAll; poly_isCloud;
                            fs_readFileSync "./configdoc.md"])
            (waiting v))).
  { unfold onConfig. cbv zeta.
    rewrite perform_script_then, perform_script_log, Hinit. cbv beta iota.
    rewrite perform_script_then, (perform_script_ask E poly_removeNoticesAll),
      exec_call_ok by done.
    cbv beta iota.
    rewrite perform_script_then, (perform_script_ask E poly_isCloud),
      exec_call_ok by done.
    cbv beta iota. cbn [lifecycle_return]. rewrite Hprem.
    rewrite perform_script_then, perform_script_then, perform_script_log.
    cbv beta iota.
    rewrite perform_script_then,
      (perform_script_ask E (fs_readFileSync "./configdoc.md")),
      (exec_call_fail _ _ _ e).
    - unfold requested, set_base. cbn. by rewrite <- !app_assoc.
    - unfold requested, set_base. cbn. rewrite !length_app. cbn [length].
      by replace (length (requests v) + 1 + 1) with (2 + length (requests v)) by lia. }
  rewrite Heq. cbn.
  unfold count. rewrite !List.filter_app. cbn. rewrite !length_app. cbn.
  repeat split; try done; lia.
Qed.

Lemma onConfig_missing_document_witness :
  (perform_script premises_without_doc (onConfig first_config)
                  (server_of (hub []))).1 = Rejected no_such_file ∧
  waiting (perform_script premises_without_doc (onConfig first_config)
                          (server_of (hub []))).2 = [].
Proof.
  destruct (onConfig_missing_document premises_without_doc (server_of (hub []))
                                      first_config no_such_file)
    as (Hr & _ & Hjobs & _); try reflexivity.
  split; [exact Hr | exact Hjobs].
Defined.

(** What the handler of [stop] does before it calls [poly.stop()]. *)
Lemma perform_onStop E v :
  perform_script E onStop v =
    exec_call E poly_stop
      (set_base
         (run (inner E) (doPoll true)
            (run (inner E) (doPoll false)
               (tick (Called (logger INFO [PStr "Graceful stop"])) (base v))).2).2
         v).
Proof.
  unfold onStop.
  rewrite perform_script_then, perform_script_log. cbv beta iota.
  rewrite perform_script_then, perform_script_code, run_doPoll_returns.
  cbv beta iota.
  rewrite perform_script_then, perform_script_code, run_doPoll_returns.
  cbv beta iota.
  by rewrite (perform_script_ask E poly_stop).
Qed.

(** X15. The handler of [stop] always reaches [poly.stop()]: whatever the
    host does during the last short poll and the last long poll, neither
    keeps the handler from stopping, and [poly.stop()] is the only lifecycle
    call it makes. The handler rejects only when [poly.stop()] throws. *)
Theorem onStop_always_stops (E : lifecycle_env) (v : server) :
  let r := perform_script E onStop v in
  requests r.2 = requests v ++ [poly_stop] ∧
  waiting r.2 = waiting v ∧
  r.1 = match fails E poly_stop (length (requests v)) with
        | Some e => Rejected e
        | None => Resolved tt
        end.
Proof.
  cbv zeta. rewrite perform_onStop. unfold exec_call. cbn [requests set_base].
  by destruct (fails E poly_stop _).
Qed.

(** X16. The handler of [stop] does not wait for the queries of its last
    short poll: on a host whose synchronous calls do not throw and with the
    lock free, [poly.stop()] is called while the [query] of every
    Fahrenheit thermostat is still suspended at its session read. *)
Theorem onStop_leaves_queries_suspended (E : lifecycle_env) (v : server) :
  quiet (inner E) →
  held (base v) = ∅ →
  let r := perform_script E onStop v in
  last (requests r.2) = Some poly_stop ∧
  in_flight (base r.2) =
    in_flight (base v) ++
    replicate (length (List.filter (λ kn, is_Fahrenheit_node kn.2)
                                   (map_to_list (nodes (base v)))))
              (storage_getItem "sessionId").
Proof.
  intros HE Hfree. cbv zeta. rewrite perform_onStop.
  set (w0 := tick (Called (logger INFO [PStr "Graceful stop"])) (base v)).
  destruct (run_doPoll_short (inner E) w0 HE) as (_ & Hflight & _ & _).
  { unfold lock_busy. subst w0. cbn. rewrite Hfree.
    by rewrite bool_decide_eq_false_2 by set_solver. }
  destruct (run_doPoll_long (inner E) (run (inner E) (doPoll false) w0).2)
    as (_ & _ & Hpending & _).
  unfold exec_call. cbn [requests set_base].
  destruct (fails E poly_stop _); cbn [snd requested requests base set_base].
  - split; [by rewrite last_snoc |].
    unfold in_flight in *. by rewrite Hpending, Hflight.
  - split; [by rewrite last_snoc |].
    unfold in_flight in *. by rewrite Hpending, Hflight.
Qed.

Lemma onStop_leaves_queries_suspended_witness :
  in_flight (base (perform_script premises onStop
                                  (server_of (hub [controller; kitchen_F]))).2)
    = [storage_getItem "sessionId"].
Proof.
  destruct (onStop_leaves_queries_suspended
              premises (server_of (hub [controller; kitchen_F])))
    as (_ & Hflight).
  - intros o t. reflexivity.
  - reflexivity.
  - rewrite Hflight. vm_compute. reflexivity.
Defined.

(** X17. No command of a Celsius thermostat reaches the vendor or writes a
    driver: [QUERY] is the base class's query, [CLISPH] only logs, and the
    node has no other command. Whatever the host does, the handler makes
    that one synchronous call and leaves every node object, every suspended
    function and the lifecycle calls as they were. *)
Theorem Celsius_commands_are_inert (E : lifecycle_env) (v : server) (this : node)
    (cmd : string) (message : message) (handler : script unit) :
  node_id this = THERMOSTAT_C →
  commands this cmd message = Some handler →
  let r := perform_script E handler v in
  events_since (base v) (base r.2) =
    [Called (if String.eqb cmd "QUERY"
             then Node_query (node_address this)
             else logger INFO [PStr "setPointHeat: "; PVal (msg_value message)])] ∧
  nodes (base r.2) = nodes (base v) ∧
  pending (base r.2) = pending (base v) ∧
  waiting r.2 = waiting v ∧
  requests r.2 = requests v.
Proof.
  intros Hid Hcmd. cbv zeta. unfold commands, setPointHeat in Hcmd.
  rewrite Hid in Hcmd.
  destruct (String.eqb cmd "QUERY").
  - injection Hcmd as <-. rewrite perform_script_code.
    unfold query. rewrite Hid. cbv beta iota.
    rewrite (run_perform (inner E) (Node_query (node_address this))).
    destruct (throws (inner E) _ _); cbn;
      unfold events_since; cbn; by rewrite drop_app_length.
  - destruct (String.eqb cmd "CLISPH"); [| discriminate].
    injection Hcmd as <-. rewrite perform_script_code.
    unfold ThermostatNode_C_setPointHeat. rewrite run_logger_info. cbn.
    unfold events_since. cbn. by rewrite drop_app_length.
Qed.

Lemma Celsius_commands_are_inert_witness :
  nodes (base (perform_script premises
                 (code (ThermostatNode_C_setPointHeat kitchen_C (Message (VNum 21))))
                 (server_of (hub [kitchen_C]))).2)
    = nodes (hub [kitchen_C]).
Proof.
  destruct (Celsius_commands_are_inert premises (server_of (hub [kitchen_C])) kitchen_C
              "CLISPH" (Message (VNum 21))
              (code (ThermostatNode_C_setPointHeat kitchen_C (Message (VNum 21)))))
    as (_ & Hnodes & _).
  - reflexivity.
  - reflexivity.
  - exact Hnodes.
Defined.

(** ** initializeCustomParams: when nothing is saved *)

(** X18. [initializeCustomParams] leaves the parameters alone exactly when
    every default key is present and every other key present is a property
    name inherited from [Object.prototype]. The values play no part: a
    complete configuration with an empty value is not saved again, so the
    empty value is not replaced by its default. *)
Theorem initializeCustomParams_saves_nothing_iff (current : gmap string string) :
  initializeCustomParams current = None ↔
  (∀ key, key ∈ dom defaultParams → key ∈ dom current) ∧
  (∀ key, key ∈ dom current →
          key ∈ dom defaultParams ∨ key ∈ Object_prototype_keys).
Proof.
  split.
  - intros Hnone.
    assert (Hkeys : ∀ key, key ∉ differentKeys current).
    { intros key Hin.
      rewrite initializeCustomParams_Some in Hnone by (by exists key). done. }
    split.
    + intros key Hd. destruct (decide (key ∈ dom current)) as [| Hc]; [done |].
      destruct (Hkeys key). apply elem_of_differentKeys. by left.
    + intros key Hc.
      destruct (decide (key ∈ dom defaultParams)) as [| Hd]; [by left |].
      destruct (decide (key ∈ Object_prototype_keys)) as [| Hp]; [by right |].
      destruct (Hkeys key). apply elem_of_differentKeys. by right.
  - intros [Hall Hother]. apply initializeCustomParams_None.
    intros key [[Hd Hc] | (Hc & Hd & Hp)]%elem_of_differentKeys.
    + by apply Hc, Hall.
    + by destruct (Hother key Hc).
Qed.
